(** * The language toggle of the portfolio site (assets/site.js)

    A shallow embedding of [$all], [setLang], [toggleLanguage] and [init]
    over a small model of the browser objects the script talks to: the
    document (its tree of elements and text nodes, and the [lang] attribute
    of the root element), [localStorage] and the clock. *)

From Stdlib Require Import ZArith Ascii String DecimalString DecimalZ.
From stdpp Require Import base strings list gmap.

(** ** The browser objects *)

(** A node of the document: a text node or an element with its id, class
    list, inline display and child nodes, in order. *)
#[local] Unset Elimination Schemes.
Inductive Node :=
| Text (data : string)
| Elem (id : string) (classList : list string) (display : string)
       (childNodes : list Node).

#[local] Set Elimination Schemes.

(** What the script can read of an element. *)
Record Element := mkElement {
  el_id : string;             (* el.id; empty when the attribute is absent *)
  el_classList : list string; (* el.classList *)
  el_display : string;        (* el.style.display; empty when no inline display *)
  el_textContent : string     (* el.textContent: the text of its descendants *)
}.

Record Document := mkDocument {
  doc_nodes : list Node;      (* the trees of the document, in order *)
  doc_lang : string           (* document.documentElement.lang *)
}.

(** What a storage access can raise. *)
Inductive Exception := SecurityError | QuotaExceededError.

(** [localStorage]: its items, whether reaching the object at all is
    refused (storage disabled) and whether writes are refused (quota). *)
Record Storage := mkStorage {
  st_items : gmap string string;
  st_denied : bool;
  st_full : bool
}.

Record World := mkWorld {
  document : Document;
  localStorage : Storage;
  now_fullYear : Z            (* the year the clock shows, in local time *)
}.

#[global] Instance Element_eq_dec : EqDecision Element.
Proof. solve_decision. Defined.

#[global] Instance Exception_eq_dec : EqDecision Exception.
Proof. solve_decision. Defined.

(** Induction on a node with the hypothesis for every child. *)
Fixpoint Node_induction (P : Node → Prop)
    (Htext : ∀ s, P (Text s))
    (Helem : ∀ i c d ch, Forall P ch → P (Elem i c d ch))
    (n : Node) : P n :=
  match n with
  | Text s => Htext s
  | Elem i c d ch =>
      Helem i c d ch
        ((fix children (l : list Node) : Forall P l :=
            match l with
            | [] => Forall_nil_2 P
            | x :: r => Forall_cons_2 P x r (Node_induction P Htext Helem x) (children r)
            end) ch)
  end.

(** [n.textContent] and the text of a list of nodes. *)
Fixpoint node_text (n : Node) : string :=
  match n with
  | Text s => s
  | Elem _ _ _ ch => foldr (λ x acc, node_text x +:+ acc) "" ch
  end.

Definition text_of (l : list Node) : string :=
  foldr (λ x acc, node_text x +:+ acc) "" l.

(** The elements of a tree and of a list of trees, in document order. *)
Fixpoint node_elements (n : Node) : list Element :=
  match n with
  | Text _ => []
  | Elem i c d ch => mkElement i c d (text_of ch) :: (ch ≫= node_elements)
  end.

Definition elements (l : list Node) : list Element := l ≫= node_elements.

(** A reference to an element: the path to it from the top of the document,
    child position by child position. The script changes the shape of the
    document only by replacing an element's children by one text node, so a
    path either still leads to the element it was taken for or into a
    replaced subtree, where it meets that text node or nothing: the element
    has then left the document. *)
Definition Ref := list nat.

(** The node a path leads to, below a node and from the top. *)
Fixpoint node_in (p : Ref) (n : Node) : option Node :=
  match p with
  | [] => Some n
  | k :: p' =>
      match n with
      | Elem _ _ _ ch => ch !! k ≫= node_in p'
      | Text _ => None
      end
  end.

Definition node_at (p : Ref) (l : list Node) : option Node :=
  match p with
  | [] => None
  | k :: p' => l !! k ≫= node_in p'
  end.

(** A change [g] applied to the node a path leads to; nothing changes when
    the path leads nowhere. *)
Fixpoint alter_in (g : Node → Node) (p : Ref) (n : Node) : Node :=
  match p with
  | [] => g n
  | k :: p' =>
      match n with
      | Elem i c d ch => Elem i c d (alter (alter_in g p') k ch)
      | Text s => Text s
      end
  end.

Definition alter_at (g : Node → Node) (p : Ref) (l : list Node) : list Node :=
  match p with
  | [] => l
  | k :: p' => alter (alter_in g p') k l
  end.

(** The paths to the elements whose id and classes satisfy [P], in document
    order: below a node, and in a list of trees counted from [k]. *)
Fixpoint find_in (P : string → list string → bool) (n : Node) : list Ref :=
  match n with
  | Text _ => []
  | Elem i c d ch =>
      (if P i c then [[]] else []) ++
      (fix children (k : nat) (l : list Node) : list Ref :=
         match l with
         | [] => []
         | x :: r => ((k ::.) <$> find_in P x) ++ children (S k) r
         end) 0%nat ch
  end.

Fixpoint find_from (P : string → list string → bool) (k : nat) (l : list Node)
    : list Ref :=
  match l with
  | [] => []
  | x :: r => ((k ::.) <$> find_in P x) ++ find_from P (S k) r
  end.

Definition find_all (P : string → list string → bool) (l : list Node) : list Ref :=
  find_from P 0 l.

(** The element a node is, if it is one, and the element at a path. *)
Definition view (n : Node) : option Element :=
  match n with
  | Elem i c d ch => Some (mkElement i c d (text_of ch))
  | Text _ => None
  end.

Definition with_nodes (l : list Node) (w : World) : World :=
  mkWorld (mkDocument l (doc_lang (document w))) (localStorage w) (now_fullYear w).

Definition with_lang (l : string) (w : World) : World :=
  mkWorld (mkDocument (doc_nodes (document w)) l) (localStorage w) (now_fullYear w).

Definition with_items (m : gmap string string) (w : World) : World :=
  mkWorld (document w)
          (mkStorage m (st_denied (localStorage w)) (st_full (localStorage w)))
          (now_fullYear w).

Definition with_display (v : string) (e : Element) : Element :=
  mkElement (el_id e) (el_classList e) v (el_textContent e).

(** ** Statements: state passing with exceptions *)

Inductive Completion (A : Type) :=
| Normal (a : A)
| Throw (e : Exception).
Arguments Normal {A} a.
Arguments Throw {A} e.

Definition JS (A : Type) : Type := World → Completion A * World.

#[global] Instance JS_ret : MRet JS := λ A a w, (Normal a, w).

#[global] Instance JS_bind : MBind JS := λ A B f m w,
  match m w with
  | (Normal a, w') => f a w'
  | (Throw e, w') => (Throw e, w')
  end.

(** [try { body } catch (_a) { handler }] *)
Definition try_catch {A} (body : JS A) (handler : Exception → JS A) : JS A :=
  λ w, match body w with
       | (Throw e, w') => handler e w'
       | r => r
       end.

(** [l.forEach(f)] on a static list of element references. *)
Fixpoint forEach (l : list Ref) (f : Ref → JS unit) : JS unit :=
  match l with
  | [] => mret tt
  | el :: rest => f el;; forEach rest f
  end.

(** ** The browser interface used by the script *)

(** [a === b] on strings. *)
Definition str_eq (a b : string) : bool := bool_decide (a = b).

(** [v === s] where [v] is a string or [null]. *)
Definition val_eq (v : option string) (s : string) : bool :=
  match v with
  | Some a => str_eq a s
  | None => false
  end.

(** The selectors the script forms: class selectors; [Class "lang-fr"]
    stands for the selector text ['.lang-fr']. *)
Inductive Selector := Class (name : string).

(** Whether an element with id [i] and classes [c] matches a selector. *)
Definition matches (selector : Selector) (i : string) (c : list string) : bool :=
  match selector with
  | Class name => bool_decide (name ∈ c)
  end.

Definition has_id (x : string) (i : string) (c : list string) : bool :=
  bool_decide (i = x).

(** [document.querySelectorAll(selector)]: the matching elements, in
    document order, as a list that later changes do not affect. *)
Definition querySelectorAll (selector : Selector) : JS (list Ref) :=
  λ w, (Normal (find_all (matches selector) (doc_nodes (document w))), w).

(** [document.getElementById(x)]: the first element with that id, or null. *)
Definition getElementById (x : string) : JS (option Ref) :=
  λ w, (Normal (head (find_all (has_id x) (doc_nodes (document w)))), w).

(** What [el.style.display = v] and [el.textContent = v] do to the node. *)
Definition display_set (v : string) (n : Node) : Node :=
  match n with
  | Elem i c _ ch => Elem i c v ch
  | Text s => Text s
  end.

(** The children [el.textContent = v] leaves: one text node, none when [v]
    is empty. *)
Definition kids (v : string) : list Node :=
  if decide (v = "") then [] else [Text v].

Definition text_set (v : string) (n : Node) : Node :=
  match n with
  | Elem i c d _ => Elem i c d (kids v)
  | Text s => Text s
  end.

(** [el.style.display = v] *)
Definition set_style_display (el : Ref) (v : string) : JS unit :=
  λ w, (Normal tt, with_nodes (alter_at (display_set v) el (doc_nodes (document w))) w).

(** [el.textContent = v]: the children of [el] are replaced by one text
    node (by none when [v] is empty). *)
Definition set_textContent (el : Ref) (v : string) : JS unit :=
  λ w, (Normal tt, with_nodes (alter_at (text_set v) el (doc_nodes (document w))) w).

(** [document.documentElement.lang] and [document.documentElement.lang = v] *)
Definition get_lang : JS string :=
  λ w, (Normal (doc_lang (document w)), w).

Definition set_lang (v : string) : JS unit :=
  λ w, (Normal tt, with_lang v w).

(** [localStorage.setItem(k, v)] *)
Definition localStorage_setItem (k v : string) : JS unit :=
  λ w, if st_denied (localStorage w) then (Throw SecurityError, w)
       else if st_full (localStorage w) then (Throw QuotaExceededError, w)
       else (Normal tt, with_items (<[k:=v]> (st_items (localStorage w))) w).

(** [localStorage.getItem(k)] *)
Definition localStorage_getItem (k : string) : JS (option string) :=
  λ w, if st_denied (localStorage w) then (Throw SecurityError, w)
       else (Normal (st_items (localStorage w) !! k), w).

(** [new Date().getFullYear()] *)
Definition Date_getFullYear : JS Z :=
  λ w, (Normal (now_fullYear w), w).

(** [String(n)] for an integer [n]: decimal digits, with a sign when negative. *)
Definition String_of_number (n : Z) : string :=
  NilEmpty.string_of_int (Z.to_int n).

(** ** The script *)

(** [function $all(selector)] *)
Definition all (selector : Selector) : JS (list Ref) :=
  querySelectorAll selector.

(** [function setLang(next)] *)
Definition setLang (next : string) : JS unit :=
  fr ← all (Class "lang-fr");
  en ← all (Class "lang-en");
  let showFR := str_eq next "fr" in
  forEach fr (λ el, set_style_display el (if showFR then "" else "none"));;
  forEach en (λ el, set_style_display el (if showFR then "none" else ""));;
  set_lang (if showFR then "fr" else "en");;
  try_catch
    (localStorage_setItem "portfolio_lang" (if showFR then "fr" else "en"))
    (λ _a, mret tt).

(** [window.toggleLanguage = function toggleLanguage()] *)
Definition toggleLanguage : JS unit :=
  lang ← get_lang;
  let current : string := if str_eq lang "fr" then "fr" else "en" in
  setLang (if str_eq current "fr" then "en" else "fr").

(** [function init()] *)
Definition init : JS unit :=
  n ← Date_getFullYear;
  let y := String_of_number n in
  year ← getElementById "year";
  yearFr ← getElementById "year-fr";
  (if year is Some el then set_textContent el y else mret tt);;
  (if yearFr is Some el then set_textContent el y else mret tt);;
  saved ← try_catch
            (localStorage_getItem "portfolio_lang")
            (λ _a, mret (Some "en"));
  setLang (if val_eq saved "fr" then "fr" else "en").

(** ** The vocabulary of the specification *)

(** [type Lang = 'en' | 'fr'] *)
Inductive Lang := en | fr.

(** The string a language is written as. *)
Definition code (v : Lang) : string :=
  match v with en => "en" | fr => "fr" end.

Definition other (v : Lang) : Lang :=
  match v with en => fr | fr => en end.

(** The class that tags an element for a language. *)
Definition class_of (v : Lang) : string :=
  match v with en => "lang-en" | fr => "lang-fr" end.

Definition tagged (v : Lang) (e : Element) : Prop :=
  class_of v ∈ el_classList e.

Definition visible (e : Element) : Prop := el_display e = "".
Definition hidden (e : Element) : Prop := el_display e = "none".

#[global] Instance tagged_dec v e : Decision (tagged v e).
Proof. unfold tagged. apply _. Defined.

#[global] Instance visible_dec e : Decision (visible e).
Proof. unfold visible. apply _. Defined.

#[global] Instance hidden_dec e : Decision (hidden e).
Proof. unfold hidden. apply _. Defined.

(** The storage key of the preference. *)
Definition portfolio_lang : string := "portfolio_lang".

(** The nodes and the elements of a world, in document order, and the world
    a statement leaves. *)
Definition nodes_of (w : World) : list Node := doc_nodes (document w).
Definition elements_of (w : World) : list Element := elements (nodes_of w).
Definition lang_of (w : World) : string := doc_lang (document w).
Definition items_of (w : World) : gmap string string := st_items (localStorage w).

(** The element a reference leads to in [w], if it still leads to one. *)
Definition element_at (p : Ref) (w : World) : option Element :=
  node_at p (nodes_of w) ≫= view.

(** [p] lies inside the element at [q]: [q] is a proper beginning of [p]. *)
Definition inside (q p : Ref) : Prop := q `prefix_of` p ∧ q ≠ p.

Definition after {A} (m : JS A) (w : World) : World := (m w).2.
Definition completes {A} (m : JS A) (w : World) : Prop := ∃ a, (m w).1 = Normal a.

(** The storage write of [setLang] throws in [w], respectively succeeds,
    whatever the value written. *)
Definition write_throws (w : World) : Prop :=
  ∀ c, ∃ e, (localStorage_setItem portfolio_lang c w).1 = Throw e.
Definition write_succeeds (w : World) : Prop :=
  ∀ c, (localStorage_setItem portfolio_lang c w).1 = Normal tt.


(** The inline display one pass of [setLang] leaves on an element with
    classes [c] and inline display [d], and the one both passes leave. *)
Definition paint (name v : string) (c : list string) (d : string) : string :=
  if bool_decide (name ∈ c) then v else d.

Definition shown_display (showFR : bool) (c : list string) (d : string) : string :=
  paint "lang-en" (if showFR then "none" else "") c
    (paint "lang-fr" (if showFR then "" else "none") c d).

(** A change of inline displays over a whole tree, and what it does to an
    element. *)
Fixpoint restyle (δ : list string → string → string) (n : Node) : Node :=
  match n with
  | Text s => Text s
  | Elem i c d ch => Elem i c (δ c d) (restyle δ <$> ch)
  end.

Definition restyled (δ : list string → string → string) (e : Element) : Element :=
  with_display (δ (el_classList e) (el_display e)) e.

Definition relabel (showFR : bool) (e : Element) : Element :=
  restyled (shown_display showFR) e.

(** The storage after the guarded write of [setLang]. *)
Definition persist (c : string) (w : World) : World :=
  if st_denied (localStorage w) || st_full (localStorage w) then w
  else with_items (<[portfolio_lang:=c]> (items_of w)) w.

(** The language the attribute stands for: anything but ["fr"] is English. *)
Definition current_of (w : World) : Lang :=
  if str_eq (lang_of w) "fr" then fr else en.

(** Language [v] is shown in [w]: the attribute is its code, every element
    tagged for [v] is visible and every element tagged for the other
    language is hidden. *)
Definition language_shown (v : Lang) (w : World) : Prop :=
  lang_of w = code v ∧
  ∀ e, e ∈ elements_of w →
    (tagged v e → visible e) ∧ (tagged (other v) e → hidden e).

(** Language [v] is applied in [w]: as above for the elements tagged for one
    language only; an element tagged for both is as the English pass, which
    runs last, leaves it. *)
Definition language_applied (v : Lang) (w : World) : Prop :=
  lang_of w = code v ∧
  ∀ e, e ∈ elements_of w →
    (tagged v e → ¬ tagged (other v) e → visible e) ∧
    (tagged (other v) e → ¬ tagged v e → hidden e) ∧
    (tagged en e → tagged fr e → if v is en then visible e else hidden e).

(** No element of [w] is tagged for both languages. *)
Definition singly_tagged (w : World) : Prop :=
  ∀ e, e ∈ elements_of w → ¬ (tagged en e ∧ tagged fr e).

(** [w'] has the elements of [w], with their ids and classes. *)
Definition same_page (w w' : World) : Prop :=
  length (elements_of w') = length (elements_of w) ∧
  ∀ i e, elements_of w !! i = Some e →
    ∃ e', elements_of w' !! i = Some e' ∧
          el_id e' = el_id e ∧
          el_classList e' = el_classList e.

(** Exactly one language is shown, respectively applied, in [w]. *)
Definition one_language_shown (w : World) : Prop :=
  ∃ v, language_shown v w.

Definition one_language_applied (w : World) : Prop :=
  ∃ v, language_applied v w ∧ ∀ v', language_applied v' w → v' = v.


(** [m] run twice. *)
Definition twice (m : JS unit) : JS unit := m;; m.

(** The language-tagged elements that are visible, by position. *)
Definition visible_tagged (w : World) : list nat :=
  omap (λ x, x)
    (imap (λ i e, if bool_decide ((tagged en e ∨ tagged fr e) ∧ visible e)
                  then Some i else None)
          (elements_of w)).


(** Any change [m] makes to the storage is the preference key being set to
    "en" or "fr". *)
Definition writes_only_codes (m : JS unit) (w : World) : Prop :=
  ∀ k, items_of (after m w) !! k ≠ items_of w !! k →
    k = portfolio_lang ∧
    (items_of (after m w) !! k = Some "en" ∨ items_of (after m w) !! k = Some "fr").

Definition is_year (e : Element) : Prop :=
  el_id e = "year" ∨ el_id e = "year-fr".

(** The preference key holds "en" or "fr". *)
Definition holds_code (w : World) : Prop :=
  items_of w !! portfolio_lang = Some "en" ∨ items_of w !! portfolio_lang = Some "fr".

(** [m] leaves alone, as they are, the elements tagged for neither language
    and the year elements. *)
Definition leaves_alone (m : JS unit) (w : World) : Prop :=
  ∀ i e, elements_of w !! i = Some e →
    (¬ tagged en e ∧ ¬ tagged fr e) ∨ is_year e →
    elements_of (after m w) !! i = Some e.

(** [m] touches nothing but the inline display of the elements tagged for a
    language, the attribute and the preference key. *)
Definition touches_only_language (m : JS unit) (w : World) : Prop :=
  length (elements_of (after m w)) = length (elements_of w) ∧
  (∀ i e, elements_of w !! i = Some e →
     ∃ e', elements_of (after m w) !! i = Some e' ∧
           el_id e' = el_id e ∧
           el_classList e' = el_classList e ∧
           el_textContent e' = el_textContent e ∧
           (¬ tagged en e → ¬ tagged fr e → e' = e)) ∧
  (∀ k, k ≠ portfolio_lang → items_of (after m w) !! k = items_of w !! k) ∧
  st_denied (localStorage (after m w)) = st_denied (localStorage w) ∧
  st_full (localStorage (after m w)) = st_full (localStorage w) ∧
  now_fullYear (after m w) = now_fullYear w.

(** [if (el) el.textContent = y] on the nodes. *)
Definition stamp (el : option Ref) (y : string) (l : list Node) : list Node :=
  match el with
  | Some p => alter_at (text_set y) p l
  | None => l
  end.

(** The references [init] holds in [year] and [yearFr]. *)
Definition year_ref (x : string) (w : World) : option Ref :=
  head (find_all (has_id x) (nodes_of w)).

(** The world after the year statements of [init]. *)
Definition year_stamped (w : World) : World :=
  let y := String_of_number (now_fullYear w) in
  with_nodes (stamp (year_ref "year-fr" w) y (stamp (year_ref "year" w) y (nodes_of w))) w.

(** The value of [saved] when [init] reaches its last statement. *)
Definition saved_of (w : World) : option string :=
  if st_denied (localStorage w) then Some "en" else items_of w !! portfolio_lang.

Definition is_digit (c : ascii) : bool :=
  let n := nat_of_ascii c in (48 <=? n)%nat && (n <=? 57)%nat.

(** A text of exactly four decimal digits. *)
Definition four_digits (s : string) : bool :=
  match s with
  | String a (String b (String c (String d EmptyString))) =>
      is_digit a && is_digit b && is_digit c && is_digit d
  | _ => false
  end.

(** The integer a decimal text stands for. *)
Definition number_of_text (s : string) : option Z :=
  Z.of_int <$> NilEmpty.int_of_string s.

(** At most one element of [w] carries the id [x]. *)
Definition id_unique (x : string) (w : World) : Prop :=
  (length (filter (λ e, el_id e = x) (elements_of w)) ≤ 1)%nat.

(** [p] is neither a year element that [init] finds nor inside one. *)
Definition outside_years (p : Ref) (w : World) : Prop :=
  ∀ x q, x = "year" ∨ x = "year-fr" → year_ref x w = Some q → ¬ q `prefix_of` p.

(** No year element that [init] finds is inside the element at [p]. *)
Definition holds_no_year (p : Ref) (w : World) : Prop :=
  ∀ x q, x = "year" ∨ x = "year-fr" → year_ref x w = Some q → ¬ p `prefix_of` q.

(** A page with an element tagged for both languages. *)
Definition page_both_tags (items : gmap string string) : World :=
  mkWorld
    (mkDocument
       [ Elem "" ["lang-en"] "" [Text "Hello"];
         Elem "" ["lang-fr"] "none" [Text "Bonjour"];
         Elem "" ["lang-fr"; "lang-en"] "" [Text "Charlotte"] ]
       "en")
    (mkStorage items false false) 2026.

(** A page as served, before any language was applied: nothing hidden. *)
Definition page_as_served : World :=
  mkWorld
    (mkDocument
       [ Elem "" ["lang-en"] "" [Text "Hello"];
         Elem "" ["lang-fr"] "" [Text "Bonjour"] ]
       "en")
    (mkStorage ∅ false false) 2026.

(** A page whose year elements carry the language classes themselves. *)
Definition page_tagged_years : World :=
  mkWorld
    (mkDocument
       [ Elem "year" ["lang-en"] "" [Text "2026"];
         Elem "year-fr" ["lang-fr"] "none" [Text "2026"] ]
       "en")
    (mkStorage ∅ false false) 2026.

(** A sample page, used for the examples below. *)
Definition sample_nodes : list Node :=
  [ Elem "" ["lang-en"] "" [Text "Hello"];
    Elem "" ["lang-fr"] "" [Text "Bonjour"];
    Elem "" ["card"] "" [Text "Projects"];
    Elem "year" [] "" [];
    Elem "year-fr" [] "" [] ].

Definition sample_world : World :=
  mkWorld (mkDocument sample_nodes "en") (mkStorage ∅ false false) 2026.


(** The same page with French showing. *)
Definition sample_world_in_French : World :=
  mkWorld
    (mkDocument
       [ Elem "" ["lang-en"] "none" [Text "Hello"];
         Elem "" ["lang-fr"] "" [Text "Bonjour"];
         Elem "" ["card"] "" [Text "Projects"];
         Elem "year" [] "" [Text "2026"];
         Elem "year-fr" [] "" [Text "2026"] ]
       "fr")
    (mkStorage {[portfolio_lang := "fr"]} false false) 2026.

(** The same page on a later visit, with French stored. *)
Definition sample_world_fr : World :=
  mkWorld (mkDocument sample_nodes "en")
          (mkStorage {[portfolio_lang := "fr"]} false false) 2026.

(** A page whose footer holds the year inside each language variant, with
    a year written by hand that is out of date. *)
Definition footer_nodes : list Node :=
  [ Elem "" ["card"] "" [Text "Projects"];
    Elem "" ["footer"] ""
      [ Elem "" ["lang-en"] ""
          [Text "(c) "; Elem "year" [] "" [Text "2019"]; Text " Charlotte"];
        Elem "" ["lang-fr"] "none"
          [Text "(c) "; Elem "year-fr" [] "" [Elem "" ["old"] "" [Text "2019"]];
           Text " Charlotte"] ] ].

Definition footer_world : World :=
  mkWorld (mkDocument footer_nodes "en") (mkStorage ∅ false false) 2026.

(** A page on which the id "year-fr" occurs twice, once inside the element
    with id "year". *)
Definition page_duplicate_ids : World :=
  mkWorld
    (mkDocument
       [ Elem "year" [] "" [Elem "year-fr" [] "" [Text "2019"]];
         Elem "year-fr" [] "" [Text "2019"] ]
       "en")
    (mkStorage ∅ false false) 2026.

(** [n] clicks on the toggle, one after the other. *)
Fixpoint clicks (n : nat) : JS unit :=
  match n with
  | 0%nat => mret tt
  | S n' => toggleLanguage;; clicks n'
  end.

(** A later load of the page: the document as served and the clock are new,
    the storage is the one [w] left behind. *)
Definition reload (served : Document) (year : Z) (w : World) : World :=
  mkWorld served (localStorage w) year.

(** The language [init] resolves from the storage of [w]. *)
Definition saved_lang (w : World) : Lang :=
  if val_eq (saved_of w) "fr" then fr else en.

(** The sample page with French stored and a storage that is full. *)
Definition sample_world_full : World :=
  mkWorld (mkDocument sample_nodes "en")
          (mkStorage {[portfolio_lang := "fr"]} false true) 2026.

(** The inline display of an element with classes [c], forgotten when a
    language class makes [setLang] overwrite it. *)
Definition neutral_display (c : list string) (d : string) : string :=
  if bool_decide ("lang-en" ∈ c ∨ "lang-fr" ∈ c) then "" else d.

(** Two served documents that differ at most in inline displays that a
    language class makes [setLang] overwrite. *)
Definition served_alike (l1 l2 : list Node) : Prop :=
  restyle neutral_display <$> l1 = restyle neutral_display <$> l2.

(** The sample page served with French showing and [lang="fr"]. *)
Definition sample_world_served_in_French : World :=
  mkWorld
    (mkDocument
       [ Elem "" ["lang-en"] "none" [Text "Hello"];
         Elem "" ["lang-fr"] "" [Text "Bonjour"];
         Elem "" ["card"] "" [Text "Projects"];
         Elem "year" [] "" [];
         Elem "year-fr" [] "" [] ]
       "fr")
    (mkStorage ∅ false false) 2026.

Example sample_init :
  (init sample_world).1 = Normal tt ∧
  elements_of (after init sample_world) =
    [ mkElement "" ["lang-en"] "" "Hello";
      mkElement "" ["lang-fr"] "none" "Bonjour";
      mkElement "" ["card"] "" "Projects";
      mkElement "year" [] "" "2026";
      mkElement "year-fr" [] "" "2026" ] ∧
  lang_of (after init sample_world) = "en" ∧
  items_of (after init sample_world) !! "portfolio_lang" = Some "en".
Proof. vm_compute. done. Qed.

Example footer_init :
  nodes_of (after init footer_world) =
    [ Elem "" ["card"] "" [Text "Projects"];
      Elem "" ["footer"] ""
        [ Elem "" ["lang-en"] ""
            [Text "(c) "; Elem "year" [] "" [Text "2026"]; Text " Charlotte"];
          Elem "" ["lang-fr"] "none"
            [Text "(c) "; Elem "year-fr" [] "" [Text "2026"]; Text " Charlotte"] ] ] ∧
  elements_of (after init footer_world) !! 2%nat =
    Some (mkElement "" ["lang-en"] "" "(c) 2026 Charlotte").
Proof. vm_compute. done. Qed.

(** ** Trees: text, elements, restyling *)

Lemma text_of_cons x l : text_of (x :: l) = node_text x +:+ text_of l.
Proof. done. Qed.

Lemma node_text_elem i c d ch : node_text (Elem i c d ch) = text_of ch.
Proof. done. Qed.

Lemma elements_cons x l : elements (x :: l) = node_elements x ++ elements l.
Proof. done. Qed.

Lemma node_elements_elem i c d ch :
  node_elements (Elem i c d ch) = mkElement i c d (text_of ch) :: elements ch.
Proof. done. Qed.

Lemma restyle_elem δ i c d ch :
  restyle δ (Elem i c d ch) = Elem i c (δ c d) (restyle δ <$> ch).
Proof. done. Qed.

(** Restyling changes no text. *)
Lemma node_text_restyle δ n : node_text (restyle δ n) = node_text n.
Proof.
  induction n as [s|i c d ch IH] using Node_induction; [done|].
  rewrite restyle_elem, !node_text_elem.
  induction IH as [|x r Hx _ IHr]; [done|].
  rewrite fmap_cons, !text_of_cons. by rewrite Hx, IHr.
Qed.

Lemma text_of_restyle δ l : text_of (restyle δ <$> l) = text_of l.
Proof.
  induction l as [|x r IH]; [done|].
  rewrite fmap_cons, !text_of_cons. by rewrite node_text_restyle, IH.
Qed.

(** The elements of a restyled tree are the restyled elements. *)
Lemma node_elements_restyle δ n :
  node_elements (restyle δ n) = restyled δ <$> node_elements n.
Proof.
  induction n as [s|i c d ch IH] using Node_induction; [done|].
  rewrite restyle_elem, !node_elements_elem, fmap_cons, text_of_restyle.
  f_equal. induction IH as [|x r Hx _ IHr]; [done|].
  rewrite fmap_cons, !elements_cons, fmap_app. by rewrite Hx, IHr.
Qed.

Lemma elements_restyle δ l : elements (restyle δ <$> l) = restyled δ <$> elements l.
Proof.
  induction l as [|x r IH]; [done|].
  rewrite fmap_cons, !elements_cons, fmap_app. by rewrite node_elements_restyle, IH.
Qed.

Lemma restyle_restyle δ δ' n :
  restyle δ (restyle δ' n) = restyle (λ c d, δ c (δ' c d)) n.
Proof.
  induction n as [s|i c d ch IH] using Node_induction; [done|].
  rewrite !restyle_elem. f_equal. rewrite <- list_fmap_compose.
  induction IH as [|x r Hx _ IHr]; [done|].
  rewrite !fmap_cons. simpl. by rewrite Hx, IHr.
Qed.

Lemma restyle_ext δ δ' n : (∀ c d, δ c d = δ' c d) → restyle δ n = restyle δ' n.
Proof.
  intros Hext. induction n as [s|i c d ch IH] using Node_induction; [done|].
  rewrite !restyle_elem, Hext. f_equal.
  induction IH as [|x r Hx _ IHr]; [done|].
  rewrite !fmap_cons. by rewrite Hx, IHr.
Qed.

Lemma restyle_forest_restyle δ δ' (l : list Node) :
  restyle δ <$> (restyle δ' <$> l) = restyle (λ c d, δ c (δ' c d)) <$> l.
Proof.
  rewrite <- list_fmap_compose. apply list_fmap_ext. intros i n _. simpl.
  apply restyle_restyle.
Qed.

Lemma restyle_forest_ext δ δ' (l : list Node) :
  (∀ c d, δ c d = δ' c d) → restyle δ <$> l = restyle δ' <$> l.
Proof. intros H. apply list_fmap_ext. intros i n _. by apply restyle_ext. Qed.

(** A restyling that changes no element changes no node. *)
Lemma restyle_fixed_node δ n :
  (∀ e, e ∈ node_elements n → restyled δ e = e) → restyle δ n = n.
Proof.
  induction n as [s|i c d ch IH] using Node_induction; [done|].
  intros Hfix. rewrite restyle_elem.
  assert (Hd : δ c d = d).
  { specialize (Hfix (mkElement i c d (text_of ch))).
    rewrite node_elements_elem in Hfix.
    specialize (Hfix (list_elem_of_here _ _)). by injection Hfix. }
  rewrite Hd. f_equal.
  assert (Hch : ∀ e, e ∈ elements ch → restyled δ e = e).
  { intros e He. apply Hfix. rewrite node_elements_elem. by right. }
  clear Hfix Hd. induction IH as [|x r Hx _ IHr]; [done|].
  rewrite fmap_cons. rewrite Hx, IHr; [done| |].
  - intros e He. apply Hch. rewrite elements_cons. apply elem_of_app. by right.
  - intros e He. apply Hch. rewrite elements_cons. apply elem_of_app. by left.
Qed.

Lemma restyle_fixed δ (l : list Node) :
  (∀ e, e ∈ elements l → restyled δ e = e) → restyle δ <$> l = l.
Proof.
  induction l as [|x r IH]; [done|]. intros Hfix.
  rewrite fmap_cons, restyle_fixed_node, IH; [done| |].
  - intros e He. apply Hfix. rewrite elements_cons. apply elem_of_app. by right.
  - intros e He. apply Hfix. rewrite elements_cons. apply elem_of_app. by left.
Qed.

(** ** Trees: finding elements *)

Lemma find_in_elem P i c d ch :
  find_in P (Elem i c d ch) = (if P i c then [[]] else []) ++ find_from P 0 ch.
Proof.
  simpl. f_equal. generalize 0%nat. induction ch as [|x r IH]; intros k; [done|].
  simpl. by rewrite IH.
Qed.

Lemma find_from_cons P k x r :
  find_from P k (x :: r) = ((k ::.) <$> find_in P x) ++ find_from P (S k) r.
Proof. done. Qed.

(** Who is found depends on ids and classes, which restyling keeps. *)
Lemma find_in_restyle P δ n : find_in P (restyle δ n) = find_in P n.
Proof.
  induction n as [s|i c d ch IH] using Node_induction; [done|].
  rewrite restyle_elem, !find_in_elem. f_equal.
  generalize 0%nat. induction IH as [|x r Hx _ IHr]; intros k; [done|].
  rewrite fmap_cons, !find_from_cons. by rewrite Hx, IHr.
Qed.

Lemma find_from_restyle P δ k l : find_from P k (restyle δ <$> l) = find_from P k l.
Proof.
  revert k. induction l as [|x r IH]; intros k; [done|].
  rewrite fmap_cons, !find_from_cons. by rewrite find_in_restyle, IH.
Qed.

(** ** Trees: a pass over the elements found *)

Lemma fold_below g i c d (ps : list Ref) : ∀ ch,
  Forall (λ p, p ≠ []) ps →
  foldl (λ n p, alter_in g p n) (Elem i c d ch) ps =
  Elem i c d (foldl (λ l p, alter_at g p l) ch ps).
Proof.
  induction ps as [|p ps IH]; intros ch Hps; [done|].
  apply Forall_cons in Hps as [Hp Hps]. destruct p as [|k p]; [done|].
  simpl. by rewrite IH.
Qed.

Lemma find_from_nonempty P k l : Forall (λ p, p ≠ []) (find_from P k l).
Proof.
  revert k. induction l as [|x r IH]; intros k; [constructor|].
  rewrite find_from_cons. apply Forall_app. split; [|apply IH].
  apply Forall_fmap, Forall_true. done.
Qed.

Lemma fold_at_position g pre x r (ps : list Ref) :
  foldl (λ l p, alter_at g p l) (pre ++ x :: r) ((length pre ::.) <$> ps) =
  pre ++ foldl (λ n p, alter_in g p n) x ps :: r.
Proof.
  revert x. induction ps as [|p ps IH]; intros x; [done|].
  rewrite fmap_cons. simpl. rewrite alter_app_r_alt by done.
  rewrite Nat.sub_diag. simpl. apply IH.
Qed.

(** When the pass does on every tree what the restyling [δ] does, it does
    so on a list of trees, wherever the list stands. *)
Lemma pass_forest g P δ l :
  Forall (λ n, foldl (λ n p, alter_in g p n) n (find_in P n) = restyle δ n) l →
  ∀ pre, foldl (λ l p, alter_at g p l) (pre ++ l) (find_from P (length pre) l) =
         pre ++ (restyle δ <$> l).
Proof.
  induction 1 as [|x r Hx _ IH]; intros pre; [done|].
  rewrite find_from_cons, foldl_app, fold_at_position, Hx.
  replace (pre ++ restyle δ x :: r) with ((pre ++ [restyle δ x]) ++ r)
    by (by rewrite <- app_assoc).
  replace (S (length pre)) with (length (pre ++ [restyle δ x]))
    by (rewrite length_app; simpl; lia).
  rewrite IH. by rewrite <- app_assoc.
Qed.

(** One pass of [setLang] over a tree: every element with the class gets
    the display [v], the others keep theirs. *)
Lemma pass_node name v n :
  foldl (λ n p, alter_in (display_set v) p n) n (find_in (matches (Class name)) n)
  = restyle (paint name v) n.
Proof.
  induction n as [s|i c d ch IH] using Node_induction; [done|].
  rewrite find_in_elem, foldl_app, restyle_elem.
  unfold paint at 1. unfold matches at 1.
  destruct (bool_decide (name ∈ c)); cbn [foldl alter_in display_set];
    rewrite fold_below by apply find_from_nonempty; f_equal;
    apply (pass_forest _ _ _ ch IH []).
Qed.

Lemma pass_paints name v (l : list Node) :
  foldl (λ l p, alter_at (display_set v) p l) l (find_all (matches (Class name)) l)
  = restyle (paint name v) <$> l.
Proof.
  apply (pass_forest _ _ _ l (proj2 (Forall_forall _ _) (λ n _, pass_node name v n)) []).
Qed.

(** ** Running the statements *)

Lemma with_nodes_same w : with_nodes (doc_nodes (document w)) w = w.
Proof. by destruct w as [[] ? ?]. Qed.

Lemma forEach_display l v w :
  forEach l (λ el, set_style_display el v) w =
  (Normal tt,
   with_nodes (foldl (λ acc el, alter_at (display_set v) el acc)
                     (doc_nodes (document w)) l) w).
Proof.
  revert w. induction l as [|el l IH]; intros w; simpl.
  - by rewrite with_nodes_same.
  - unfold mbind, JS_bind. simpl. rewrite IH. by destruct w as [[] ? ?].
Qed.

(** [setLang] in one step: it always completes, restyles the document as
    the French pass followed by the English pass does, sets the attribute
    and tries the write. *)
Lemma setLang_run next w :
  setLang next w =
  (Normal tt,
   persist (if str_eq next "fr" then "fr" else "en")
     (with_lang (if str_eq next "fr" then "fr" else "en")
        (with_nodes (restyle (shown_display (str_eq next "fr")) <$> nodes_of w) w))).
Proof.
  unfold setLang, all, querySelectorAll, mbind, JS_bind. simpl.
  rewrite forEach_display. simpl.
  rewrite forEach_display. simpl.
  rewrite (pass_paints "lang-fr").
  assert (Hen : find_all (matches (Class "lang-en")) (doc_nodes (document w))
                = find_all (matches (Class "lang-en"))
                    (restyle (paint "lang-fr" (if str_eq next "fr" then "" else "none"))
                       <$> doc_nodes (document w)))
    by (unfold find_all; by rewrite find_from_restyle).
  rewrite Hen, (pass_paints "lang-en"), restyle_forest_restyle.
  unfold try_catch, localStorage_setItem, set_lang, persist, nodes_of, items_of.
  destruct w as [[l a] [it d f] y]. simpl.
  destruct d, f; simpl; try done.
Qed.

Lemma toggleLanguage_run w :
  toggleLanguage w = setLang (code (other (current_of w))) w.
Proof.
  unfold toggleLanguage, get_lang, current_of, lang_of, mbind, JS_bind. simpl.
  by destruct (str_eq (doc_lang (document w)) "fr").
Qed.

Lemma str_eq_code v : str_eq (code v) "fr" = if v is fr then true else false.
Proof. by destruct v. Qed.

Lemma completes_setLang next w : completes (setLang next) w.
Proof. exists tt. by rewrite setLang_run. Qed.

Lemma nodes_persist c w : nodes_of (persist c w) = nodes_of w.
Proof. unfold persist. by destruct (_ || _). Qed.

Lemma lang_persist c w : lang_of (persist c w) = lang_of w.
Proof. unfold persist. by destruct (_ || _). Qed.

Lemma nodes_after_setLang next w :
  nodes_of (after (setLang next) w) =
  restyle (shown_display (str_eq next "fr")) <$> nodes_of w.
Proof. unfold after. rewrite setLang_run. simpl. by rewrite nodes_persist. Qed.

Lemma elements_after_setLang next w :
  elements_of (after (setLang next) w) =
  relabel (str_eq next "fr") <$> elements_of w.
Proof. unfold elements_of. rewrite nodes_after_setLang. apply elements_restyle. Qed.

Lemma lang_after_setLang next w :
  lang_of (after (setLang next) w) = if str_eq next "fr" then "fr" else "en".
Proof. unfold after. rewrite setLang_run. simpl. by rewrite lang_persist. Qed.

Lemma relabel_id b e : el_id (relabel b e) = el_id e.
Proof. done. Qed.

Lemma relabel_classList b e : el_classList (relabel b e) = el_classList e.
Proof. done. Qed.

Lemma relabel_textContent b e : el_textContent (relabel b e) = el_textContent e.
Proof. done. Qed.

(** The inline display both passes leave: the English pass decides for an
    element tagged English, the French pass for one tagged French only. *)
Lemma relabel_display b e :
  el_display (relabel b e) =
  if bool_decide (tagged en e) then (if b then "none" else "")
  else if bool_decide (tagged fr e) then (if b then "" else "none")
  else el_display e.
Proof.
  unfold relabel, restyled, shown_display, paint, tagged. simpl.
  repeat case_bool_decide; done.
Qed.

Lemma relabel_untagged b e : ¬ tagged en e → ¬ tagged fr e → relabel b e = e.
Proof.
  destruct e as [i c d t].
  unfold relabel, restyled, shown_display, paint, tagged, with_display. simpl.
  intros Hen Hfr.
  rewrite (bool_decide_eq_false_2 _ Hfr). by rewrite (bool_decide_eq_false_2 _ Hen).
Qed.

Lemma same_page_relabel b w w' :
  elements_of w' = relabel b <$> elements_of w → same_page w w'.
Proof.
  intros Hels. split.
  - by rewrite Hels, length_fmap.
  - intros i e Hi. exists (relabel b e).
    rewrite Hels, list_lookup_fmap, Hi.
    by rewrite relabel_id, relabel_classList.
Qed.

(** After [setLang], the language its argument stands for is applied. *)
Lemma setLang_applies next w :
  language_applied (if str_eq next "fr" then fr else en) (after (setLang next) w).
Proof.
  split.
  - rewrite lang_after_setLang. by destruct (str_eq next "fr").
  - intros e' He'. rewrite elements_after_setLang in He'.
    apply list_elem_of_fmap in He' as (e & -> & _).
    unfold tagged, visible, hidden.
    rewrite relabel_classList, relabel_display. unfold tagged.
    destruct (str_eq next "fr"); simpl;
      repeat case_bool_decide; naive_solver.
Qed.

Lemma shown_applied v w :
  singly_tagged w → language_applied v w → language_shown v w.
Proof.
  intros Hone [Hl He]. split; [done|]. intros e Hin.
  destruct (He e Hin) as (Hv & Ho & _). specialize (Hone e Hin).
  split; intros Ht.
  - apply Hv; [done|]. intros Ht'. apply Hone. destruct v; simpl in *; done.
  - apply Ho; [done|]. intros Ht'. apply Hone. destruct v; simpl in *; done.
Qed.

Lemma init_run w :
  init w =
  setLang (if val_eq (saved_of w) "fr" then "fr" else "en") (year_stamped w).
Proof.
  unfold init, Date_getFullYear, getElementById, set_textContent, try_catch,
    localStorage_getItem, saved_of, year_stamped, year_ref, stamp, nodes_of,
    items_of, mbind, JS_bind, mret, JS_ret.
  simpl.
  destruct (head (find_all (has_id "year") _)) as [p1|]; simpl;
    destruct (head (find_all (has_id "year-fr") _)) as [p2|]; simpl;
    destruct (st_denied (localStorage w)); simpl;
    rewrite ?with_nodes_same; try done;
    destruct w as [[l a] st y]; done.
Qed.

Lemma same_page_singly_tagged w w' :
  same_page w w' → singly_tagged w → singly_tagged w'.
Proof.
  intros [Hlen Hsame] Hone e' Hin'.
  apply list_elem_of_lookup in Hin' as [i Hi'].
  assert (is_Some (elements_of w !! i)) as [e Hi].
  { apply lookup_lt_is_Some. rewrite <- Hlen. by eapply lookup_lt_Some. }
  destruct (Hsame i e Hi) as (e'' & Hi'' & _ & Hc).
  assert (e'' = e') as -> by congruence.
  unfold tagged. rewrite Hc. apply Hone. apply list_elem_of_lookup. eauto.
Qed.

Lemma same_page_setLang next w : same_page w (after (setLang next) w).
Proof. eapply same_page_relabel, elements_after_setLang. Qed.

(** ** Trees: paths *)

Lemma append_empty_r (s : string) : s +:+ "" = s.
Proof.
  induction s as [|a s IH]; [done|].
  change (String a (s +:+ "") = String a s). by rewrite IH.
Qed.

Lemma node_in_app p r n : node_in (p ++ r) n = node_in p n ≫= node_in r.
Proof.
  revert n. induction p as [|k p IH]; intros n; [done|].
  destruct n as [s|i c d ch]; [done|]. simpl.
  destruct (ch !! k) as [x|]; [apply IH | done].
Qed.

Lemma node_at_app p r l : p ≠ [] → node_at (p ++ r) l = node_at p l ≫= node_in r.
Proof.
  destruct p as [|k p]; [done|]. intros _. simpl.
  destruct (l !! k) as [x|]; [apply node_in_app | done].
Qed.

(** A change at or below [p], seen from [p]. *)
Lemma node_in_alter_below g p r n :
  node_in p (alter_in g (p ++ r) n) = alter_in g r <$> node_in p n.
Proof.
  revert n. induction p as [|k p IH]; intros n; [done|].
  destruct n as [s|i c d ch]; [done|]. simpl.
  rewrite list_lookup_alter_eq. destruct (ch !! k) as [x|]; [apply IH | done].
Qed.

Lemma node_at_alter_below g p r l :
  p ≠ [] → node_at p (alter_at g (p ++ r) l) = alter_in g r <$> node_at p l.
Proof.
  destruct p as [|k p]; [done|]. intros _. simpl.
  rewrite list_lookup_alter_eq. destruct (l !! k) as [x|]; [apply node_in_alter_below | done].
Qed.

(** A change elsewhere, on neither the path nor a beginning of it. *)
Lemma node_in_alter_apart g p q n :
  ¬ p `prefix_of` q → ¬ q `prefix_of` p →
  node_in p (alter_in g q n) = node_in p n.
Proof.
  revert q n. induction p as [|k p IH]; intros q n Hpq Hqp.
  { destruct Hpq. apply prefix_nil. }
  destruct q as [|k' q]; [destruct Hqp; apply prefix_nil|].
  destruct n as [s|i c d ch]; [done|]. simpl.
  destruct (decide (k' = k)) as [->|Hne].
  - rewrite list_lookup_alter_eq. destruct (ch !! k) as [x|]; [|done]. simpl.
    apply IH; intros H; [apply Hpq | apply Hqp]; by apply prefix_cons.
  - by rewrite list_lookup_alter_ne.
Qed.

Lemma node_at_alter_apart g p q l :
  ¬ p `prefix_of` q → ¬ q `prefix_of` p →
  node_at p (alter_at g q l) = node_at p l.
Proof.
  intros Hpq Hqp.
  destruct p as [|k p]; [destruct Hpq; apply prefix_nil|].
  destruct q as [|k' q]; [destruct Hqp; apply prefix_nil|]. simpl.
  destruct (decide (k' = k)) as [->|Hne].
  - rewrite list_lookup_alter_eq. destruct (l !! k) as [x|]; [|done]. simpl.
    apply node_in_alter_apart; intros H; [apply Hpq | apply Hqp]; by apply prefix_cons.
  - by rewrite list_lookup_alter_ne.
Qed.

Lemma inside_app q p : inside q p → ∃ r, r ≠ [] ∧ p = q ++ r.
Proof.
  intros [[r ->] Hne]. exists r. split; [|done].
  intros ->. apply Hne. by rewrite app_nil_r.
Qed.

Lemma not_inside_cases q p :
  ¬ inside q p → p `prefix_of` q ∨ (¬ p `prefix_of` q ∧ ¬ q `prefix_of` p).
Proof.
  intros Hni. destruct (decide (p `prefix_of` q)) as [|Hpq]; [by left|].
  right. split; [done|]. intros Hqp. apply Hni. split; [done|].
  intros ->. by apply Hpq.
Qed.

(** ** Trees: the text write *)

Lemma text_of_kids y : text_of (kids y) = y.
Proof.
  unfold kids. case_decide as Hy; [by subst|]. simpl. apply append_empty_r.
Qed.

Lemma text_set_elem y i c d ch : text_set y (Elem i c d ch) = Elem i c d (kids y).
Proof. done. Qed.

Lemma alter_in_text g p s : g (Text s) = Text s → alter_in g p (Text s) = Text s.
Proof. by destruct p. Qed.

(** A text write below an element already written leaves it as it is. *)
Lemma text_set_in_written y r i c d :
  alter_in (text_set y) r (Elem i c d (kids y)) = Elem i c d (kids y).
Proof.
  destruct r as [|k r]; [done|]. simpl. f_equal.
  unfold kids. case_decide; [done|].
  destruct k as [|k]; [|done]. simpl. by rewrite alter_in_text.
Qed.

(** A text write keeps an element an element, with its id, classes and
    display. *)
Lemma text_set_in_elem y r i c d ch :
  ∃ ch', alter_in (text_set y) r (Elem i c d ch) = Elem i c d ch'.
Proof. destruct r as [|k r]; simpl; eauto. Qed.

Lemma view_below_written y r i c d :
  r ≠ [] → node_in r (Elem i c d (kids y)) ≫= view = None.
Proof.
  destruct r as [|k r]; [done|]. intros _. simpl.
  unfold kids. case_decide; [done|].
  destruct k as [|k]; [|done]. simpl. by destruct r.
Qed.

(** The element written first is still there, written, after the second
    write, unless it lies inside the element written second. *)
Lemma written_first y p q l i c d ch :
  node_at p l = Some (Elem i c d ch) → ¬ inside q p →
  node_at p (alter_at (text_set y) q (alter_at (text_set y) p l))
  = Some (Elem i c d (kids y)).
Proof.
  intros Hp Hni.
  assert (Hp0 : p ≠ []) by (by destruct p).
  assert (H1 : node_at p (alter_at (text_set y) p l) = Some (Elem i c d (kids y))).
  { rewrite <- (app_nil_r p) at 2. rewrite node_at_alter_below, Hp by done. done. }
  destruct (not_inside_cases q p Hni) as [[r ->]|[Hpq Hqp]].
  - rewrite node_at_alter_below, H1 by done. simpl. by rewrite text_set_in_written.
  - by rewrite node_at_alter_apart.
Qed.

(** The element written second is there, written, unless it lay inside the
    element written first. *)
Lemma written_second y p q l i c d ch :
  node_at p l = Some (Elem i c d ch) → ¬ inside q p →
  node_at p (alter_at (text_set y) p (alter_at (text_set y) q l))
  = Some (Elem i c d (kids y)).
Proof.
  intros Hp Hni.
  assert (Hp0 : p ≠ []) by (by destruct p).
  assert (H1 : ∃ ch', node_at p (alter_at (text_set y) q l) = Some (Elem i c d ch')).
  { destruct (not_inside_cases q p Hni) as [[r ->]|[Hpq Hqp]].
    - rewrite node_at_alter_below, Hp by done. simpl.
      destruct (text_set_in_elem y r i c d ch) as [ch' ->]. eauto.
    - rewrite node_at_alter_apart by done. eauto. }
  destruct H1 as [ch' H1].
  rewrite <- (app_nil_r p) at 2. rewrite node_at_alter_below, H1 by done. done.
Qed.

Lemma written_once y p l i c d ch :
  node_at p l = Some (Elem i c d ch) →
  node_at p (alter_at (text_set y) p l) = Some (Elem i c d (kids y)).
Proof.
  intros Hp. assert (Hp0 : p ≠ []) by (by destruct p).
  rewrite <- (app_nil_r p) at 2. rewrite node_at_alter_below, Hp by done. done.
Qed.

(** An element inside a written element has left the document, whichever
    of the two was written first. *)
Lemma gone_below_written y p q (l : list Node) i c d :
  node_at q l = Some (Elem i c d (kids y)) → inside q p →
  node_at p l ≫= view = None.
Proof.
  intros Hq [r [Hr ->]]%inside_app.
  assert (Hq0 : q ≠ []) by (by destruct q).
  rewrite node_at_app, Hq by done. simpl. by apply view_below_written.
Qed.

Lemma gone_first_then_second y p q l i c d ch :
  node_at q l = Some (Elem i c d ch) → inside q p →
  node_at p (alter_at (text_set y) q (alter_at (text_set y) p l)) ≫= view = None.
Proof.
  intros Hq Hin. destruct (inside_app q p Hin) as (r & Hr & Hpr).
  assert (Hq0 : q ≠ []) by (by destruct q).
  assert (H1 : ∃ ch', node_at q (alter_at (text_set y) p l) = Some (Elem i c d ch')).
  { rewrite Hpr, node_at_alter_below, Hq by done. simpl.
    destruct (text_set_in_elem y r i c d ch) as [ch' ->]. eauto. }
  destruct H1 as [ch' H1].
  eapply gone_below_written; [|done]. by eapply written_once.
Qed.

Lemma gone_second_then_first y p q l i c d ch :
  node_at q l = Some (Elem i c d ch) → inside q p →
  node_at p (alter_at (text_set y) p (alter_at (text_set y) q l)) ≫= view = None.
Proof.
  intros Hq Hin. destruct (inside_app q p Hin) as (r & Hr & Hpr).
  assert (Hq0 : q ≠ []) by (by destruct q).
  eapply (gone_below_written y p q); [|done].
  rewrite Hpr at 1. rewrite node_at_alter_below by done.
  rewrite (written_once y q l i c d ch Hq). simpl. by rewrite text_set_in_written.
Qed.

(** Restyling and paths. *)
Lemma node_in_restyle δ p n : node_in p (restyle δ n) = restyle δ <$> node_in p n.
Proof.
  revert n. induction p as [|k p IH]; intros n; [done|].
  destruct n as [s|i c d ch]; [done|]. simpl.
  rewrite list_lookup_fmap. destruct (ch !! k) as [x|]; [apply IH | done].
Qed.

Lemma node_at_restyle δ p (l : list Node) :
  node_at p (restyle δ <$> l) = restyle δ <$> node_at p l.
Proof.
  destruct p as [|k p]; [done|]. simpl.
  rewrite list_lookup_fmap. destruct (l !! k) as [x|]; [apply node_in_restyle | done].
Qed.

Lemma view_restyle δ n : view (restyle δ n) = restyled δ <$> view n.
Proof.
  destruct n as [s|i c d ch]; [done|]. simpl. by rewrite text_of_restyle.
Qed.

(** The text write and restyling commute. *)
Lemma text_set_in_restyle y δ p n :
  alter_in (text_set y) p (restyle δ n) = restyle δ (alter_in (text_set y) p n).
Proof.
  revert n. induction p as [|k p IH]; intros n.
  - destruct n as [s|i c d ch]; [done|]. simpl. f_equal.
    unfold kids. by destruct (decide (y = "")).
  - destruct n as [s|i c d ch]; [done|]. simpl. f_equal.
    symmetry. apply list_fmap_alter, Forall_forall. intros x _. symmetry. apply IH.
Qed.

Lemma text_set_at_restyle y δ p (l : list Node) :
  alter_at (text_set y) p (restyle δ <$> l) = restyle δ <$> alter_at (text_set y) p l.
Proof.
  destruct p as [|k p]; [done|]. simpl.
  symmetry. apply list_fmap_alter, Forall_forall. intros x _. symmetry.
  apply text_set_in_restyle.
Qed.

Lemma stamp_restyle el y δ (l : list Node) :
  stamp el y (restyle δ <$> l) = restyle δ <$> stamp el y l.
Proof. destruct el; [apply text_set_at_restyle | done]. Qed.

(** A text write where no element is, or on an element already written,
    changes nothing. *)
Lemma text_set_in_nothing y p n :
  node_in p n ≫= view = None → alter_in (text_set y) p n = n.
Proof.
  revert n. induction p as [|k p IH]; intros n Hn.
  - by destruct n.
  - destruct n as [s|i c d ch]; [done|]. simpl in *. f_equal.
    apply list_eq. intros j. destruct (decide (k = j)) as [->|Hne].
    + rewrite list_lookup_alter_eq. destruct (ch !! j) as [x|]; [|done].
      simpl in *. by rewrite IH.
    + by rewrite list_lookup_alter_ne.
Qed.

Lemma text_set_at_nothing y p (l : list Node) :
  node_at p l ≫= view = None → alter_at (text_set y) p l = l.
Proof.
  destruct p as [|k p]; [done|]. simpl. intros Hn.
  apply list_eq. intros j. destruct (decide (k = j)) as [->|Hne].
  - rewrite list_lookup_alter_eq. destruct (l !! j) as [x|]; [|done].
    simpl in *. by rewrite text_set_in_nothing.
  - by rewrite list_lookup_alter_ne.
Qed.

Lemma text_set_in_again y p n i c d :
  node_in p n = Some (Elem i c d (kids y)) → alter_in (text_set y) p n = n.
Proof.
  revert n. induction p as [|k p IH]; intros n Hn.
  - simpl in Hn. by injection Hn as ->.
  - destruct n as [s|i' c' d' ch]; [done|]. simpl in *. f_equal.
    apply list_eq. intros j. destruct (decide (k = j)) as [->|Hne].
    + rewrite list_lookup_alter_eq. destruct (ch !! j) as [x|]; [|done].
      simpl in *. by rewrite IH.
    + by rewrite list_lookup_alter_ne.
Qed.

Lemma text_set_at_again y p (l : list Node) i c d :
  node_at p l = Some (Elem i c d (kids y)) → alter_at (text_set y) p l = l.
Proof.
  destruct p as [|k p]; [done|]. simpl. intros Hn.
  apply list_eq. intros j. destruct (decide (k = j)) as [->|Hne].
  - rewrite list_lookup_alter_eq. destruct (l !! j) as [x|]; [|done].
    simpl in *. by erewrite text_set_in_again.
  - by rewrite list_lookup_alter_ne.
Qed.

(** A text write creates no element and keeps ids, classes and displays. *)
Lemma text_set_in_origin y q p n i c d ch' :
  node_in p (alter_in (text_set y) q n) = Some (Elem i c d ch') →
  ∃ ch, node_in p n = Some (Elem i c d ch).
Proof.
  revert p n. induction q as [|k q IH]; intros p n.
  - destruct n as [s|i0 c0 d0 ch0]; simpl.
    + eauto.
    + destruct p as [|j p]; simpl.
      * intros [= -> -> -> <-]. eauto.
      * unfold kids. destruct (decide (y = "")); [done|].
        destruct j as [|j]; [|done]. simpl. by destruct p.
  - destruct n as [s|i0 c0 d0 ch0]; simpl; [eauto|].
    destruct p as [|j p]; simpl.
    + intros [= -> -> -> <-]. eauto.
    + destruct (decide (k = j)) as [->|Hne].
      * rewrite list_lookup_alter_eq. destruct (ch0 !! j) as [x|]; [|done]. simpl.
        apply IH.
      * rewrite list_lookup_alter_ne by done. eauto.
Qed.

Lemma text_set_at_origin y q p (l : list Node) i c d ch' :
  node_at p (alter_at (text_set y) q l) = Some (Elem i c d ch') →
  ∃ ch, node_at p l = Some (Elem i c d ch).
Proof.
  destruct q as [|k q]; [eauto|]. destruct p as [|j p]; [done|]. simpl.
  destruct (decide (k = j)) as [->|Hne].
  - rewrite list_lookup_alter_eq. destruct (l !! j) as [x|]; [|done]. simpl.
    apply text_set_in_origin.
  - rewrite list_lookup_alter_ne by done. eauto.
Qed.

Lemma stamp_origin el y p (l : list Node) i c d ch' :
  node_at p (stamp el y l) = Some (Elem i c d ch') →
  ∃ ch, node_at p l = Some (Elem i c d ch).
Proof. destruct el; [apply text_set_at_origin | eauto]. Qed.

(** ** Trees: what is found, and where the elements come from *)

Lemma find_from_spec P l :
  Forall (λ n, ∀ p, p ∈ find_in P n ↔
            ∃ i c d ch, node_in p n = Some (Elem i c d ch) ∧ P i c = true) l →
  ∀ k p, p ∈ find_from P k l ↔
    ∃ j p' n, p = (k + j)%nat :: p' ∧ l !! j = Some n ∧
      ∃ i c d ch, node_in p' n = Some (Elem i c d ch) ∧ P i c = true.
Proof.
  induction 1 as [|x r Hx _ IH]; intros k p.
  - split; [by intros ?%elem_of_nil|]. by intros (j & p' & n & _ & ? & _).
  - rewrite find_from_cons, elem_of_app, list_elem_of_fmap. split.
    + intros [(p' & -> & Hp')|Hin].
      * exists 0%nat, p', x. rewrite Nat.add_0_r. split; [done|]. split; [done|].
        by apply Hx.
      * apply IH in Hin as (j & p' & n & -> & Hj & Hn).
        exists (S j), p', n. split; [f_equal; lia|]. done.
    + intros ([|j] & p' & n & -> & Hj & Hn).
      * left. exists p'. rewrite Nat.add_0_r. split; [done|].
        simpl in Hj. injection Hj as <-. by apply Hx.
      * right. apply IH. exists j, p', n. split; [f_equal; lia|]. done.
Qed.

(** The paths found below a node are the paths to the elements below it
    that satisfy [P]. *)
Lemma find_in_spec P n p :
  p ∈ find_in P n ↔ ∃ i c d ch, node_in p n = Some (Elem i c d ch) ∧ P i c = true.
Proof.
  revert p. induction n as [s|i c d ch IH] using Node_induction; intros p.
  - split; [by intros ?%elem_of_nil|].
    intros (i & c & d & ch & Hn & _). by destruct p.
  - rewrite find_in_elem, elem_of_app, (find_from_spec P ch IH). split.
    + intros [Hself|(j & p' & n & -> & Hj & Hn)].
      * destruct (P i c) eqn:HP; [|by apply elem_of_nil in Hself].
        apply list_elem_of_singleton in Hself as ->. by exists i, c, d, ch.
      * simpl. by rewrite Hj.
    + intros (i' & c' & d' & ch' & Hn & HP). destruct p as [|j p'].
      * simpl in Hn. injection Hn as -> -> -> ->. left. rewrite HP.
        by apply list_elem_of_singleton.
      * right. simpl in Hn. destruct (ch !! j) as [n|] eqn:Hj; [|done].
        exists j, p', n. split; [done|]. split; [done|]. by exists i', c', d', ch'.
Qed.

Lemma find_all_spec P (l : list Node) p :
  p ∈ find_all P l ↔ ∃ i c d ch, node_at p l = Some (Elem i c d ch) ∧ P i c = true.
Proof.
  unfold find_all.
  rewrite (find_from_spec P l (proj2 (Forall_forall _ _) (λ n _, find_in_spec P n))).
  split.
  - intros (j & p' & n & -> & Hj & Hn). simpl. by rewrite Hj.
  - intros (i & c & d & ch & Hn & HP). destruct p as [|j p']; [done|].
    simpl in Hn. destruct (l !! j) as [n|] eqn:Hj; [|done].
    exists j, p', n. split; [done|]. split; [done|]. by exists i, c, d, ch.
Qed.

(** What [getElementById] returns leads to an element with that id. *)
Lemma year_ref_Some x w p :
  year_ref x w = Some p →
  p ∈ find_all (has_id x) (nodes_of w) ∧
  ∃ c d ch, node_at p (nodes_of w) = Some (Elem x c d ch).
Proof.
  unfold year_ref. intros Hp.
  assert (Hin : p ∈ find_all (has_id x) (nodes_of w)).
  { apply head_Some in Hp as [r ->]. by left. }
  split; [done|].
  apply find_all_spec in Hin as (i & c & d & ch & Hn & Hid).
  unfold has_id in Hid. apply bool_decide_eq_true in Hid as ->. eauto.
Qed.

(** As many are found as there are elements that satisfy [P]. *)
Lemma find_in_length P n :
  length (find_in P n)
  = length (filter (λ e, P (el_id e) (el_classList e) = true) (node_elements n)).
Proof.
  induction n as [s|i c d ch IH] using Node_induction; [done|].
  rewrite find_in_elem, node_elements_elem, length_app, filter_cons. simpl.
  assert (Hch : ∀ k, length (find_from P k ch)
            = length (filter (λ e, P (el_id e) (el_classList e) = true) (elements ch))).
  { induction IH as [|x r Hx _ IHr]; intros k; [done|].
    rewrite find_from_cons, elements_cons, filter_app, !length_app, length_fmap.
    f_equal; [apply Hx | apply IHr]. }
  rewrite Hch. by destruct (P i c).
Qed.

Lemma find_all_length P (l : list Node) :
  length (find_all P l)
  = length (filter (λ e, P (el_id e) (el_classList e) = true) (elements l)).
Proof.
  unfold find_all. generalize 0%nat. induction l as [|x r IH]; intros k; [done|].
  rewrite find_from_cons, elements_cons, filter_app, !length_app, length_fmap.
  f_equal; [apply find_in_length | apply IH].
Qed.

Lemma elements_alter f k (l : list Node) e :
  e ∈ elements (alter f k l) →
  e ∈ elements l ∨ ∃ x, l !! k = Some x ∧ e ∈ node_elements (f x).
Proof.
  unfold elements. rewrite !list_elem_of_bind.
  intros (n & He & Hn). apply list_elem_of_lookup in Hn as [j Hj].
  destruct (decide (k = j)) as [->|Hne].
  - rewrite list_lookup_alter_eq in Hj. destruct (l !! j) as [x|] eqn:Hx; [|done].
    simpl in Hj. injection Hj as <-. right. eauto.
  - rewrite list_lookup_alter_ne in Hj by done. left. exists n. split; [done|].
    apply list_elem_of_lookup. eauto.
Qed.

(** Every element after a text write is an element from before, with its
    id, classes and display. *)
Lemma text_set_in_elements y q n e' :
  e' ∈ node_elements (alter_in (text_set y) q n) →
  ∃ e, e ∈ node_elements n ∧ el_id e' = el_id e ∧
       el_classList e' = el_classList e ∧ el_display e' = el_display e.
Proof.
  revert n e'. induction q as [|k q IH]; intros n e'.
  - destruct n as [s|i c d ch]; [by intros ?%elem_of_nil|].
    cbn [alter_in]. rewrite text_set_elem, !node_elements_elem.
    assert (Hk : elements (kids y) = [])
      by (unfold kids; by destruct (decide (y = ""))).
    rewrite Hk. intros ->%list_elem_of_singleton.
    exists (mkElement i c d (text_of ch)). split; [by left|done].
  - destruct n as [s|i c d ch]; [by intros ?%elem_of_nil|].
    simpl alter_in. rewrite !node_elements_elem.
    intros [->|He']%elem_of_cons.
    + exists (mkElement i c d (text_of ch)). split; [by left|done].
    + apply elements_alter in He' as [He'|(x & Hx & He')].
      * exists e'. split; [by right|done].
      * apply IH in He' as (e & He & Hsame). exists e. split; [|done].
        right. unfold elements. apply list_elem_of_bind. exists x.
        split; [done|]. apply list_elem_of_lookup. eauto.
Qed.

Lemma stamp_elements el y (l : list Node) e' :
  e' ∈ elements (stamp el y l) →
  ∃ e, e ∈ elements l ∧ el_id e' = el_id e ∧
       el_classList e' = el_classList e ∧ el_display e' = el_display e.
Proof.
  destruct el as [[|k q]|]; simpl; [by eauto| |by eauto].
  intros [He'|(x & Hx & He')]%elements_alter; [by eauto|].
  apply text_set_in_elements in He' as (e & He & Hsame). exists e. split; [|done].
  unfold elements. apply list_elem_of_bind. exists x.
  split; [done|]. apply list_elem_of_lookup. eauto.
Qed.

Lemma elements_year_stamped w e' :
  e' ∈ elements_of (year_stamped w) →
  ∃ e, e ∈ elements_of w ∧ el_id e' = el_id e ∧
       el_classList e' = el_classList e ∧ el_display e' = el_display e.
Proof.
  unfold elements_of, year_stamped, nodes_of. simpl. intros He'.
  apply stamp_elements in He' as (e1 & He1 & Hi1 & Hc1 & Hd1).
  apply stamp_elements in He1 as (e & He & Hi & Hc & Hd).
  exists e. split; [done|]. repeat split; congruence.
Qed.

Lemma singly_tagged_year_stamped w : singly_tagged w → singly_tagged (year_stamped w).
Proof.
  intros Hone e' He'. apply elements_year_stamped in He' as (e & He & _ & Hc & _).
  unfold tagged. rewrite Hc. by apply Hone.
Qed.

(** ** What the operations leave *)

Lemma completes_toggleLanguage w : completes toggleLanguage w.
Proof. unfold completes. rewrite toggleLanguage_run. apply completes_setLang. Qed.

Lemma completes_init w : completes init w.
Proof. unfold completes. rewrite init_run. apply completes_setLang. Qed.

Lemma toggleLanguage_applies w :
  language_applied (other (current_of w)) (after toggleLanguage w).
Proof.
  unfold after. rewrite toggleLanguage_run.
  pose proof (setLang_applies (code (other (current_of w))) w) as H.
  rewrite str_eq_code in H. by destruct (other (current_of w)).
Qed.

Lemma init_applies w :
  language_applied (if val_eq (saved_of w) "fr" then fr else en) (after init w).
Proof.
  unfold after. rewrite init_run.
  pose proof (setLang_applies (if val_eq (saved_of w) "fr" then "fr" else "en")
                (year_stamped w)) as H.
  by destruct (val_eq (saved_of w) "fr").
Qed.

Lemma applied_unique v v' w : language_applied v w → language_applied v' w → v' = v.
Proof. intros [Hl _] [Hl' _]. rewrite Hl in Hl'. by destruct v, v'. Qed.

Lemma applied_one v w : language_applied v w → one_language_applied w.
Proof. intros H. exists v. split; [done|]. intros v'. by apply applied_unique. Qed.





Lemma document_persist c w : document (persist c w) = document w.
Proof. unfold persist. by destruct (_ || _). Qed.

Lemma document_after_setLang next w :
  document (after (setLang next) w) =
  mkDocument (restyle (shown_display (str_eq next "fr")) <$> nodes_of w)
             (if str_eq next "fr" then "fr" else "en").
Proof. unfold after. rewrite setLang_run. simpl. by rewrite document_persist. Qed.

Lemma storage_after_setLang next w :
  localStorage (after (setLang next) w) =
  if st_denied (localStorage w) || st_full (localStorage w) then localStorage w
  else mkStorage (<[portfolio_lang:=if str_eq next "fr" then "fr" else "en"]> (items_of w))
                 false false.
Proof.
  unfold after. rewrite setLang_run. unfold persist, items_of. simpl.
  destruct (st_denied (localStorage w)) eqn:Hd,
           (st_full (localStorage w)) eqn:Hf; simpl; by rewrite ?Hd, ?Hf.
Qed.

Lemma year_after_setLang next w : now_fullYear (after (setLang next) w) = now_fullYear w.
Proof.
  unfold after. rewrite setLang_run. unfold persist. simpl. by destruct (_ || _).
Qed.

Lemma write_throws_flags w :
  write_throws w ↔ st_denied (localStorage w) || st_full (localStorage w) = true.
Proof.
  unfold write_throws, localStorage_setItem.
  destruct (st_denied _), (st_full _); simpl; split; try done.
  - intros _ c. by exists SecurityError.
  - intros _ c. by exists SecurityError.
  - intros _ c. by exists QuotaExceededError.
  - intros H. by destruct (H "en") as [e He].
Qed.

Lemma write_succeeds_flags w :
  write_succeeds w ↔ st_denied (localStorage w) || st_full (localStorage w) = false.
Proof.
  unfold write_succeeds, localStorage_setItem.
  destruct (st_denied _), (st_full _); simpl; split; try done;
    intros H; by specialize (H "en").
Qed.

(** Both passes again: the later pair decides. *)
Lemma shown_display_again b b' c d :
  shown_display b c (shown_display b' c d) = shown_display b c d.
Proof. unfold shown_display, paint. by repeat case_bool_decide. Qed.

Lemma restyle_shown_again b b' (l : list Node) :
  restyle (shown_display b) <$> (restyle (shown_display b') <$> l)
  = restyle (shown_display b) <$> l.
Proof.
  rewrite restyle_forest_restyle. apply restyle_forest_ext.
  intros c d. apply shown_display_again.
Qed.

Lemma after_twice (m : JS unit) w :
  completes m w → after (twice m) w = after m (after m w).
Proof.
  intros [a Ha]. unfold after, twice, mbind, JS_bind.
  destruct (m w) as [[a'|e] w'] eqn:Hm; simpl in *; [done | discriminate].
Qed.

Lemma completes_twice (m : JS unit) w :
  completes m w → completes m (after m w) → completes (twice m) w.
Proof.
  intros [a Ha] [a2 Ha2]. unfold completes, after, twice, mbind, JS_bind in *.
  destruct (m w) as [[a'|e] w'] eqn:Hm; simpl in *; [eauto | discriminate].
Qed.

Lemma current_after_setLang v w : current_of (after (setLang (code v)) w) = v.
Proof.
  unfold current_of. rewrite lang_after_setLang, str_eq_code. by destruct v.
Qed.


Lemma other_other v : other (other v) = v.
Proof. by destruct v. Qed.

(** Applying the language that is already applied changes no element. *)
Lemma relabel_applied v w e :
  language_applied v w → e ∈ elements_of w →
  relabel (if v is fr then true else false) e = e.
Proof.
  intros [_ H] Hin. destruct (H e Hin) as (Hv & Ho & Hb).
  destruct e as [i cs d t].
  unfold relabel, restyled, shown_display, paint, with_display.
  unfold tagged, visible, hidden in *. simpl in *.
  destruct (decide ("lang-en" ∈ cs)) as [Hen|Hen],
           (decide ("lang-fr" ∈ cs)) as [Hfr|Hfr];
    destruct v; simpl in *; repeat (case_bool_decide; simpl); try done;
    f_equal; symmetry; auto.
Qed.

Lemma document_applied v w :
  language_applied v w → document (after (setLang (code v)) w) = document w.
Proof.
  intros Happ. rewrite document_after_setLang, str_eq_code.
  assert (Hnodes : restyle (shown_display (if v is fr then true else false))
                     <$> nodes_of w = nodes_of w).
  { apply restyle_fixed. intros e He. by apply (relabel_applied v w). }
  destruct Happ as [Hl _]. unfold lang_of, nodes_of in *.
  destruct (document w) as [l a]. simpl in *. subst a.
  destruct v; by rewrite Hnodes.
Qed.

(** Two toggles amount to applying the language the attribute stood for. *)
Lemma document_toggle_twice w :
  document (after (twice toggleLanguage) w) =
  document (after (setLang (code (current_of w))) w).
Proof.
  rewrite after_twice by apply completes_toggleLanguage.
  unfold after at 1. rewrite toggleLanguage_run.
  fold (after (setLang (code (other (current_of (after toggleLanguage w)))))
              (after toggleLanguage w)).
  assert (Hcur : current_of (after toggleLanguage w) = other (current_of w)).
  { unfold after. rewrite toggleLanguage_run. apply current_after_setLang. }
  rewrite Hcur, other_other.
  rewrite !document_after_setLang.
  unfold after. rewrite toggleLanguage_run.
  fold (after (setLang (code (other (current_of w)))) w).
  by rewrite nodes_after_setLang, restyle_shown_again.
Qed.

Lemma visible_tagged_document w w' :
  document w = document w' → visible_tagged w = visible_tagged w'.
Proof. unfold visible_tagged, elements_of, nodes_of. by intros ->. Qed.

Lemma four_digits_year y :
  (1000 ≤ y ≤ 9999)%Z → four_digits (String_of_number y) = true.
Proof.
  intros Hy.
  assert (Hall : forallb (λ n, four_digits (String_of_number (1000 + Z.of_nat n)))
                         (seq 0 (Z.to_nat 9000)) = true) by (vm_compute; reflexivity).
  rewrite forallb_forall in Hall.
  specialize (Hall (Z.to_nat (y - 1000))).
  rewrite Z2Nat.id in Hall by lia.
  replace (1000 + (y - 1000))%Z with y in Hall by lia.
  apply Hall, in_seq. lia.
Qed.

(** The text [String] gives for a number reads back as that number. *)
Lemma number_of_text_String n : number_of_text (String_of_number n) = Some n.
Proof.
  unfold number_of_text, String_of_number.
  rewrite NilEmpty.isi. simpl. by rewrite DecimalZ.of_to.
Qed.

Lemma nodes_after_init w :
  nodes_of (after init w) =
  restyle (shown_display (str_eq (if val_eq (saved_of w) "fr" then "fr" else "en") "fr"))
    <$> nodes_of (year_stamped w).
Proof.
  unfold after. rewrite init_run.
  apply (nodes_after_setLang _ (year_stamped w)).
Qed.

Lemma elements_after_init w :
  elements_of (after init w) =
  relabel (str_eq (if val_eq (saved_of w) "fr" then "fr" else "en") "fr")
    <$> elements_of (year_stamped w).
Proof.
  unfold after. rewrite init_run.
  apply (elements_after_setLang _ (year_stamped w)).
Qed.

Lemma singly_tagged_init w : singly_tagged w → singly_tagged (after init w).
Proof.
  intros Hone e' He'. rewrite elements_after_init in He'.
  apply list_elem_of_fmap in He' as (e & -> & He).
  unfold tagged. rewrite relabel_classList.
  by apply (singly_tagged_year_stamped w Hone).
Qed.

Lemma storage_year_stamped w : localStorage (year_stamped w) = localStorage w.
Proof. done. Qed.

Lemma items_after_setLang next w :
  items_of (after (setLang next) w) = items_of w ∨
  items_of (after (setLang next) w) =
    <[portfolio_lang:=if str_eq next "fr" then "fr" else "en"]> (items_of w).
Proof.
  unfold items_of at 1 3. rewrite storage_after_setLang.
  destruct (_ || _); [by left | by right].
Qed.

Lemma writes_only_codes_setLang next w : writes_only_codes (setLang next) w.
Proof.
  intros k Hk. destruct (items_after_setLang next w) as [Heq|Heq];
    rewrite Heq in Hk |- *; [done|].
  destruct (decide (k = portfolio_lang)) as [->|Hne].
  - split; [done|]. rewrite lookup_insert_eq.
    destruct (str_eq next "fr"); [by right | by left].
  - by rewrite lookup_insert_ne in Hk.
Qed.

Lemma holds_code_setLang next w : write_succeeds w → holds_code (after (setLang next) w).
Proof.
  intros Hok%write_succeeds_flags. unfold holds_code, items_of.
  rewrite storage_after_setLang, Hok. simpl. rewrite lookup_insert_eq.
  destruct (str_eq next "fr"); [by right | by left].
Qed.

Lemma write_succeeds_year_stamped w : write_succeeds w → write_succeeds (year_stamped w).
Proof. rewrite !write_succeeds_flags. by rewrite storage_year_stamped. Qed.

Lemma touches_only_language_setLang next w : touches_only_language (setLang next) w.
Proof.
  split; [by rewrite elements_after_setLang, length_fmap|].
  split.
  { intros i e Hi. exists (relabel (str_eq next "fr") e).
    rewrite elements_after_setLang, list_lookup_fmap, Hi.
    rewrite relabel_id, relabel_classList, relabel_textContent.
    repeat (split; [done|]). intros. by apply relabel_untagged. }
  split.
  { intros k Hk. destruct (items_after_setLang next w) as [->| ->]; [done|].
    by rewrite lookup_insert_ne. }
  rewrite storage_after_setLang, year_after_setLang.
  by destruct (st_denied (localStorage w)) eqn:Hd, (st_full (localStorage w)) eqn:Hf.
Qed.

(** ** The claims *)

Section Claims.

Implicit Types (v : Lang) (w : World) (next : string).

(** C1, as stated, fails on a page with an element tagged for both
    languages: after [setLang "fr"] that element, tagged French, is hidden,
    because the English pass runs after the French one. *)
Lemma setLang_shown_counterexample :
  elements_of (after (setLang (code fr)) (page_both_tags ∅)) !! 2%nat =
    Some (mkElement "" ["lang-fr"; "lang-en"] "none" "Charlotte") ∧
  ¬ language_shown fr (after (setLang (code fr)) (page_both_tags ∅)).
Proof.
  split; [by vm_compute|]. intros [_ H].
  destruct (H (mkElement "" ["lang-fr"; "lang-en"] "none" "Charlotte")) as [Hv _].
  { apply list_elem_of_lookup. exists 2%nat. by vm_compute. }
  assert (Ht : tagged fr (mkElement "" ["lang-fr"; "lang-en"] "none" "Charlotte"))
    by (unfold tagged; simpl; left).
  specialize (Hv Ht). discriminate Hv.
Qed.

(** C1 (amended): for every language [v] and every world, [setLang] called
    with the code of [v] completes, keeps the page's elements with their
    ids and classes, and leaves [v] applied: the attribute is the code of
    [v], every element tagged for [v] only is visible (inline display
    cleared), every element tagged for the other language only is hidden
    (inline display "none"), and an element tagged for both is as the
    English pass leaves it. On a page where no element is tagged for both,
    [v] is shown exactly as the claim words it. *)
Theorem setLang_applies_language v w :
  completes (setLang (code v)) w ∧
  same_page w (after (setLang (code v)) w) ∧
  language_applied v (after (setLang (code v)) w) ∧
  (singly_tagged w → language_shown v (after (setLang (code v)) w)).
Proof.
  assert (Happ : language_applied v (after (setLang (code v)) w)).
  { pose proof (setLang_applies (code v) w) as H.
    rewrite str_eq_code in H. by destruct v. }
  split; [apply completes_setLang|].
  split; [apply same_page_setLang|].
  split; [done|].
  intros Hone. apply shown_applied; [|done].
  eapply same_page_singly_tagged; [apply same_page_setLang | done].
Qed.







(** C7, as stated, fails on a page with an element tagged for both
    languages: after [toggleLanguage] the attribute is "fr" and that
    element, tagged French, is hidden, so neither language is shown. *)
Lemma one_language_counterexample :
  lang_of (after toggleLanguage (page_both_tags ∅)) = "fr" ∧
  elements_of (after toggleLanguage (page_both_tags ∅)) !! 2%nat =
    Some (mkElement "" ["lang-fr"; "lang-en"] "none" "Charlotte") ∧
  ¬ one_language_shown (after toggleLanguage (page_both_tags ∅)).
Proof.
  split; [by vm_compute|]. split; [by vm_compute|]. intros [v [Hl H]].
  destruct v; [by vm_compute in Hl|].
  destruct (H (mkElement "" ["lang-fr"; "lang-en"] "none" "Charlotte")) as [Hv _].
  { apply list_elem_of_lookup. exists 2%nat. by vm_compute. }
  assert (Ht : tagged fr (mkElement "" ["lang-fr"; "lang-en"] "none" "Charlotte"))
    by (unfold tagged; simpl; left).
  specialize (Hv Ht). discriminate Hv.
Qed.

(** C7 (amended): after [setLang] (on any argument), [toggleLanguage] or
    [init], from any world, the operation has completed, the attribute is
    exactly "en" or "fr", and exactly one language is applied: every
    element tagged for it only is visible, every element tagged for the
    other only is hidden, and an element tagged for both is as the English
    pass leaves it. On a page where no element is tagged for both, that
    language is shown as the claim words it. *)
Theorem one_language_after_each_operation next w :
  (completes (setLang next) w ∧
   (lang_of (after (setLang next) w) = "en" ∨ lang_of (after (setLang next) w) = "fr") ∧
   one_language_applied (after (setLang next) w) ∧
   (singly_tagged w → one_language_shown (after (setLang next) w))) ∧
  (completes toggleLanguage w ∧
   (lang_of (after toggleLanguage w) = "en" ∨ lang_of (after toggleLanguage w) = "fr") ∧
   one_language_applied (after toggleLanguage w) ∧
   (singly_tagged w → one_language_shown (after toggleLanguage w))) ∧
  (completes init w ∧
   (lang_of (after init w) = "en" ∨ lang_of (after init w) = "fr") ∧
   one_language_applied (after init w) ∧
   (singly_tagged w → one_language_shown (after init w))).
Proof.
  assert (Hgen : ∀ (m : JS unit) v, completes m w →
            (singly_tagged w → singly_tagged (after m w)) →
            language_applied v (after m w) →
            completes m w ∧
            (lang_of (after m w) = "en" ∨ lang_of (after m w) = "fr") ∧
            one_language_applied (after m w) ∧
            (singly_tagged w → one_language_shown (after m w))).
  { intros m v Hc Hsame Happ. split; [done|]. split.
    - destruct Happ as [-> _]. destruct v; [by left | by right].
    - split; [by eapply applied_one|]. intros Hone. exists v.
      apply shown_applied; [|done]. by apply Hsame. }
  split; [|split].
  - eapply Hgen; [apply completes_setLang | | apply setLang_applies].
    apply same_page_singly_tagged, same_page_setLang.
  - eapply Hgen; [apply completes_toggleLanguage | | apply toggleLanguage_applies].
    unfold after. rewrite toggleLanguage_run.
    apply same_page_singly_tagged, same_page_setLang.
  - eapply Hgen; [apply completes_init | apply singly_tagged_init | apply init_applies].
Qed.

(** C2, as stated, fails from a page on which both languages are visible
    while the attribute says "en" (the page as served, before any language
    was applied): two toggles leave only the English element visible. *)
Lemma toggle_twice_counterexample :
  visible_tagged page_as_served = [0; 1]%nat ∧
  visible_tagged (after (twice toggleLanguage) page_as_served) = [0]%nat ∧
  visible_tagged (after (twice toggleLanguage) page_as_served)
    ≠ visible_tagged page_as_served.
Proof. split; [by vm_compute|]. split; [by vm_compute|]. by vm_compute. Qed.

(** C2 (amended): from every world, [toggleLanguage] called twice completes
    and leaves the document as [setLang] on the language the attribute
    first stood for leaves it; so whenever a language is applied in the
    starting world, as it is after [setLang], [toggleLanguage] or [init],
    two toggles restore the document and with it the set of visible
    language-tagged elements. *)
Theorem toggle_twice_round_trip next w :
  completes (twice toggleLanguage) w ∧
  document (after (twice toggleLanguage) w) =
    document (after (setLang (code (current_of w))) w) ∧
  (∀ v, language_applied v w →
     document (after (twice toggleLanguage) w) = document w ∧
     visible_tagged (after (twice toggleLanguage) w) = visible_tagged w) ∧
  visible_tagged (after (twice toggleLanguage) (after (setLang next) w))
    = visible_tagged (after (setLang next) w) ∧
  visible_tagged (after (twice toggleLanguage) (after toggleLanguage w))
    = visible_tagged (after toggleLanguage w) ∧
  visible_tagged (after (twice toggleLanguage) (after init w))
    = visible_tagged (after init w).
Proof.
  assert (Hback : ∀ w0 v, language_applied v w0 →
            document (after (twice toggleLanguage) w0) = document w0).
  { intros w0 v Happ. rewrite document_toggle_twice.
    assert (current_of w0 = v) as ->.
    { destruct Happ as [Hl _]. unfold current_of. rewrite Hl, str_eq_code.
      by destruct v. }
    by apply document_applied. }
  split; [|split; [|split; [|split; [|split]]]].
  - apply completes_twice; apply completes_toggleLanguage.
  - apply document_toggle_twice.
  - intros v Happ. split; [by eapply Hback|].
    apply visible_tagged_document. by eapply Hback.
  - apply visible_tagged_document. eapply Hback, setLang_applies.
  - apply visible_tagged_document. eapply Hback, toggleLanguage_applies.
  - apply visible_tagged_document. eapply Hback, init_applies.
Qed.

(** C2 on the sample page with French showing. *)
Lemma toggle_twice_round_trip_witness :
  language_applied fr sample_world_in_French ∧
  document (after (twice toggleLanguage) sample_world_in_French)
    = document sample_world_in_French ∧
  visible_tagged (after (twice toggleLanguage) sample_world_in_French)
    = visible_tagged sample_world_in_French.
Proof.
  assert (H : language_applied fr sample_world_in_French).
  { split; [reflexivity|]. intros e He.
    let l := eval vm_compute in (elements_of sample_world_in_French) in
      change (e ∈ l) in He.
    repeat (apply elem_of_cons in He as [->|He];
            [simpl; apply (bool_decide_unpack _); by vm_compute|]).
    by apply elem_of_nil in He. }
  split; [exact H|].
  exact (proj1 (proj2 (proj2 (toggle_twice_round_trip "" sample_world_in_French)))
           fr H).
Defined.





(** C8: [init] completes whether or not the year elements exist. Each
    year element that [getElementById] finds under "year" or "year-fr" is,
    after [init], still at its place with that id and with the current year
    in decimal as its text content: the text reads back as the year of the
    clock, and is four digits for the years 1000 to 9999. The one exception
    is a year element that lies inside the other one: the write to the outer
    one removes it from the document. When neither element exists, [init]
    does what [setLang] alone does. *)
Theorem init_stamps_year w :
  completes init w ∧
  (∀ x x' p, (x = "year" ∧ x' = "year-fr") ∨ (x = "year-fr" ∧ x' = "year") →
     (getElementById x w).1 = Normal (Some p) →
     (∃ e', element_at p (after init w) = Some e' ∧
            el_id e' = x ∧
            el_textContent e' = String_of_number (now_fullYear w) ∧
            number_of_text (el_textContent e') = Some (now_fullYear w) ∧
            ((1000 ≤ now_fullYear w ≤ 9999)%Z →
             four_digits (el_textContent e') = true)) ∨
     (∃ q, (getElementById x' w).1 = Normal (Some q) ∧ inside q p ∧
           element_at p (after init w) = None)) ∧
  ((getElementById "year" w).1 = Normal None →
   (getElementById "year-fr" w).1 = Normal None →
   after init w = after (setLang (code (saved_lang w))) w).
Proof.
  split; [apply completes_init|]. split.
  - intros x x' p Hx Hget.
    assert (Hp : year_ref x w = Some p) by (by injection Hget).
    destruct (year_ref_Some x w p Hp) as (_ & c & d & ch & Hnode).
    set (y := String_of_number (now_fullYear w)).
    set (b := str_eq (if val_eq (saved_of w) "fr" then "fr" else "en") "fr").
    assert (Hwritten :
      node_at p (nodes_of (year_stamped w)) = Some (Elem x c d (kids y)) →
      ∃ e', element_at p (after init w) = Some e' ∧ el_id e' = x ∧
            el_textContent e' = y ∧
            number_of_text (el_textContent e') = Some (now_fullYear w) ∧
            ((1000 ≤ now_fullYear w ≤ 9999)%Z →
             four_digits (el_textContent e') = true)).
    { intros Hn. unfold element_at.
      rewrite nodes_after_init, node_at_restyle, Hn. simpl.
      rewrite text_of_restyle, text_of_kids. eexists. split; [reflexivity|]. simpl.
      split; [done|]. split; [done|].
      split; [apply number_of_text_String | apply four_digits_year]. }
    assert (Hgone :
      node_at p (nodes_of (year_stamped w)) ≫= view = None →
      element_at p (after init w) = None).
    { intros Hn. unfold element_at.
      rewrite nodes_after_init, node_at_restyle.
      destruct (node_at p (nodes_of (year_stamped w))) as [n|]; [|done].
      simpl in *. rewrite view_restyle. by rewrite Hn. }
    unfold year_stamped, nodes_of in Hwritten, Hgone. simpl in Hwritten, Hgone.
    fold (nodes_of w) in Hwritten, Hgone. fold y in Hwritten, Hgone.
    destruct Hx as [[-> ->]|[-> ->]].
    + (* "year", written first *)
      rewrite Hp in Hwritten, Hgone.
      destruct (year_ref "year-fr" w) as [q|] eqn:Hq; simpl in Hwritten, Hgone.
      * destruct (decide (inside q p)) as [Hin|Hout].
        -- right. exists q. split; [by unfold getElementById; rewrite <- Hq|].
           split; [done|]. apply Hgone.
           destruct (year_ref_Some "year-fr" w q Hq) as (_ & c' & d' & ch' & Hnq).
           by eapply gone_first_then_second.
        -- left. apply Hwritten. by eapply written_first.
      * left. apply Hwritten. by eapply written_once.
    + (* "year-fr", written second *)
      rewrite Hp in Hwritten, Hgone.
      destruct (year_ref "year" w) as [q|] eqn:Hq; simpl in Hwritten, Hgone.
      * destruct (decide (inside q p)) as [Hin|Hout].
        -- right. exists q. split; [by unfold getElementById; rewrite <- Hq|].
           split; [done|]. apply Hgone.
           destruct (year_ref_Some "year" w q Hq) as (_ & c' & d' & ch' & Hnq).
           by eapply gone_second_then_first.
        -- left. apply Hwritten. by eapply written_second.
      * left. apply Hwritten. by eapply written_once.
  - intros [= H1] [= H2]. unfold after. rewrite init_run.
    assert (Hsame : year_stamped w = w).
    { unfold year_stamped, year_ref, nodes_of. rewrite H1, H2. simpl.
      apply with_nodes_same. }
    rewrite Hsame. unfold saved_lang. by destruct (val_eq (saved_of w) "fr").
Qed.

(** C8 on the footer page in 2026: the element with id "year", which held
    "2019", holds "2026". *)
Lemma init_stamps_year_witness :
  (getElementById "year" footer_world).1 = Normal (Some [1; 0; 1]%nat) ∧
  element_at [1; 0; 1]%nat (after init footer_world)
    = Some (mkElement "year" [] "" "2026") ∧
  ((∃ e', element_at [1; 0; 1]%nat (after init footer_world) = Some e' ∧
          el_id e' = "year" ∧
          el_textContent e' = String_of_number (now_fullYear footer_world) ∧
          number_of_text (el_textContent e') = Some (now_fullYear footer_world) ∧
          ((1000 ≤ now_fullYear footer_world ≤ 9999)%Z →
           four_digits (el_textContent e') = true)) ∨
   (∃ q, (getElementById "year-fr" footer_world).1 = Normal (Some q) ∧
         inside q [1; 0; 1]%nat ∧
         element_at [1; 0; 1]%nat (after init footer_world) = None)).
Proof.
  split; [reflexivity|]. split; [by vm_compute|].
  exact (proj1 (proj2 (init_stamps_year footer_world)) "year" "year-fr" [1; 0; 1]%nat
           (or_introl (conj eq_refl eq_refl)) eq_refl).
Defined.

(** C9: whatever the argument of [setLang], and for [toggleLanguage] and
    [init] as well, the only change made to the storage is the preference
    key being set to exactly "en" or "fr"; and when the write succeeds the
    key holds one of these two strings afterwards. *)
Theorem storage_holds_en_or_fr next w :
  writes_only_codes (setLang next) w ∧
  writes_only_codes toggleLanguage w ∧
  writes_only_codes init w ∧
  (write_succeeds w →
     holds_code (after (setLang next) w) ∧
     holds_code (after toggleLanguage w) ∧
     holds_code (after init w)).
Proof.
  split; [apply writes_only_codes_setLang|].
  split.
  { unfold writes_only_codes, after. rewrite toggleLanguage_run.
    apply writes_only_codes_setLang. }
  split.
  { unfold writes_only_codes, after. rewrite init_run.
    apply (writes_only_codes_setLang _ (year_stamped w)). }
  intros Hok. split; [by apply holds_code_setLang|]. split.
  - unfold after. rewrite toggleLanguage_run. by apply holds_code_setLang.
  - unfold after. rewrite init_run.
    apply (holds_code_setLang _ (year_stamped w)).
    by apply write_succeeds_year_stamped.
Qed.

(** C9 on the sample page, with an argument that is no language code. *)
Lemma storage_holds_en_or_fr_witness :
  write_succeeds sample_world ∧
  holds_code (after (setLang "de") sample_world) ∧
  holds_code (after toggleLanguage sample_world) ∧
  holds_code (after init sample_world).
Proof.
  assert (H : write_succeeds sample_world) by (intros c; reflexivity).
  split; [exact H|].
  exact (proj2 (proj2 (proj2 (storage_holds_en_or_fr "de" sample_world))) H).
Defined.

(** C10, as stated, fails on a page whose year elements carry the language
    classes themselves: [toggleLanguage] hides the element with id "year",
    which is tagged English. *)
Lemma frame_counterexample :
  elements_of page_tagged_years !! 0%nat =
    Some (mkElement "year" ["lang-en"] "" "2026") ∧
  elements_of (after toggleLanguage page_tagged_years) !! 0%nat =
    Some (mkElement "year" ["lang-en"] "none" "2026") ∧
  ¬ leaves_alone toggleLanguage page_tagged_years.
Proof.
  split; [by vm_compute|]. split; [by vm_compute|]. intros H.
  specialize (H 0%nat (mkElement "year" ["lang-en"] "" "2026") eq_refl).
  assert (Hy : is_year (mkElement "year" ["lang-en"] "" "2026")) by (by left).
  specialize (H (or_intror Hy)). vm_compute in H. discriminate H.
Qed.

(** C10 (amended): [setLang] (on any argument) and [toggleLanguage] keep
    the number of elements and every element's id, classes and text, so
    the text of the year elements is never modified; they leave every
    element tagged for neither language exactly as it was; they leave
    every storage key other than the preference key, the storage's
    availability and the clock as they were. Only the inline display of
    elements tagged French or English (a year element included, when it
    carries such a class), the attribute and the preference key change. *)
Theorem setLang_touches_only_language next w :
  touches_only_language (setLang next) w ∧
  touches_only_language toggleLanguage w.
Proof.
  split; [apply touches_only_language_setLang|].
  unfold touches_only_language, after. rewrite toggleLanguage_run.
  apply touches_only_language_setLang.
Qed.

(** C1 on the sample page, where no element is tagged for both. *)
Lemma setLang_applies_language_witness :
  singly_tagged sample_world ∧
  language_shown fr (after (setLang (code fr)) sample_world).
Proof.
  assert (H : singly_tagged sample_world).
  { intros e He.
    let l := eval vm_compute in (elements_of sample_world) in change (e ∈ l) in He.
    repeat (apply elem_of_cons in He as [->|He];
            [apply (bool_decide_unpack _); by vm_compute|]).
    by apply elem_of_nil in He. }
  split; [exact H|].
  exact (proj2 (proj2 (proj2 (setLang_applies_language fr sample_world))) H).
Defined.

(** C7 on the sample page with French showing. *)
Lemma one_language_after_each_operation_witness :
  singly_tagged sample_world_in_French ∧
  one_language_shown (after toggleLanguage sample_world_in_French).
Proof.
  assert (H : singly_tagged sample_world_in_French).
  { intros e He.
    let l := eval vm_compute in (elements_of sample_world_in_French) in
      change (e ∈ l) in He.
    repeat (apply elem_of_cons in He as [->|He];
            [apply (bool_decide_unpack _); by vm_compute|]).
    by apply elem_of_nil in He. }
  split; [exact H|].
  exact (proj2 (proj2 (proj2 (proj1 (proj2
           (one_language_after_each_operation "" sample_world_in_French))))) H).
Defined.

(** C10 on the sample page: the untagged card is left as it was. *)
Lemma setLang_touches_only_language_witness :
  elements_of sample_world !! 2%nat = Some (mkElement "" ["card"] "" "Projects") ∧
  ∃ e', elements_of (after toggleLanguage sample_world) !! 2%nat = Some e' ∧
        e' = mkElement "" ["card"] "" "Projects".
Proof.
  split; [reflexivity|].
  destruct (proj1 (proj2 (proj2 (setLang_touches_only_language "" sample_world)))
              2%nat (mkElement "" ["card"] "" "Projects") eq_refl)
    as (e' & He' & _ & _ & _ & Hsame).
  exists e'. split; [exact He'|].
  apply Hsame; apply (bool_decide_unpack _); by vm_compute.
Defined.

End Claims.

(** ** How the operations compose *)

Section Composition.

Implicit Types (v : Lang) (w : World) (next : string).

Lemma setLang_pair next w : setLang next w = (Normal tt, after (setLang next) w).
Proof. unfold after. by rewrite setLang_run. Qed.

Lemma after_setLang_setLang a b w :
  after (setLang b) (after (setLang a) w) = after (setLang b) w.
Proof.
  unfold after. rewrite !setLang_run. simpl.
  destruct w as [[l x] [it d f] y].
  unfold persist, with_lang, with_nodes, with_items, nodes_of, items_of. simpl.
  destruct d, f; simpl; rewrite restyle_shown_again; try done.
  by rewrite insert_insert_eq.
Qed.

(** X1: the last call of [setLang] wins: [setLang a] followed by [setLang b]
    leaves the whole world, storage included, as [setLang b] alone does, and
    completes. In particular [setLang] is idempotent. *)
Theorem setLang_last_call_wins a b w :
  (setLang a;; setLang b) w = setLang b w ∧
  (setLang b;; setLang b) w = setLang b w.
Proof.
  assert (H : ∀ x, (setLang x;; setLang b) w = setLang b w).
  { intros x. unfold mbind, JS_bind. rewrite (setLang_pair x w).
    rewrite (setLang_pair b (after (setLang x) w)), (setLang_pair b w).
    by rewrite after_setLang_setLang. }
  split; apply H.
Qed.

Lemma after_toggleLanguage w :
  after toggleLanguage w = after (setLang (code (other (current_of w)))) w.
Proof. unfold after. by rewrite toggleLanguage_run. Qed.

Lemma after_clicks_S n w :
  after (clicks (S n)) w = after (clicks n) (after toggleLanguage w).
Proof.
  unfold after. simpl. unfold mbind, JS_bind.
  by rewrite toggleLanguage_run, setLang_pair.
Qed.

Lemma completes_clicks n w : completes (clicks n) w.
Proof.
  revert w. induction n as [|n IH]; intros w; [by exists tt|].
  unfold completes. simpl. unfold mbind, JS_bind.
  rewrite toggleLanguage_run, setLang_pair. apply IH.
Qed.

(** X2: any number of clicks completes; no click leaves the world as it
    is; after an odd number of clicks the world is as [setLang] on the
    opposite of the language the attribute first stood for leaves it, after
    an even number (two or more) as [setLang] on that language itself. *)
Theorem clicks_parity n w :
  completes (clicks n) w ∧
  after (clicks 0) w = w ∧
  after (clicks (S n)) w =
    after (setLang (code (if Nat.odd (S n) then other (current_of w)
                          else current_of w))) w.
Proof.
  split; [apply completes_clicks|]. split; [done|].
  revert w. induction n as [|n IH]; intros w.
  - rewrite after_clicks_S. simpl. apply after_toggleLanguage.
  - rewrite after_clicks_S, IH, after_toggleLanguage.
    rewrite current_after_setLang, after_setLang_setLang.
    rewrite (Nat.odd_succ (S n)), <- Nat.negb_odd.
    destruct (Nat.odd (S n)); simpl; by rewrite ?other_other.
Qed.

Lemma saved_of_reload served year w :
  saved_of (reload served year w) = saved_of w.
Proof. done. Qed.

Lemma saved_after_setLang next w :
  write_succeeds w →
  saved_of (after (setLang next) w) = Some (if str_eq next "fr" then "fr" else "en").
Proof.
  intros Hok%write_succeeds_flags. unfold saved_of, items_of.
  rewrite storage_after_setLang, Hok. simpl. apply lookup_insert_eq.
Qed.

(** X3: a choice that could be written survives a reload: if the storage
    accepts the write, then after [setLang] (on any argument) or
    [toggleLanguage], [init] on a later load of the page (any served
    document, any clock, the storage left behind) applies the language that
    was chosen. *)
Theorem preference_survives_reload next served year w :
  write_succeeds w →
  language_applied (if str_eq next "fr" then fr else en)
    (after init (reload served year (after (setLang next) w))) ∧
  language_applied (other (current_of w))
    (after init (reload served year (after toggleLanguage w))).
Proof.
  intros Hok.
  assert (H : ∀ x, language_applied (if str_eq x "fr" then fr else en)
                     (after init (reload served year (after (setLang x) w)))).
  { intros x.
    pose proof (init_applies (reload served year (after (setLang x) w))) as Happ.
    rewrite saved_of_reload, saved_after_setLang in Happ by done.
    simpl in Happ. by destruct (str_eq x "fr"). }
  split; [apply H|].
  rewrite after_toggleLanguage.
  specialize (H (code (other (current_of w)))).
  rewrite str_eq_code in H. by destruct (other (current_of w)).
Qed.

(** X3 on the sample page: French is chosen, the page is served again. *)
Lemma preference_survives_reload_witness :
  write_succeeds sample_world ∧
  language_applied fr
    (after init (reload (mkDocument sample_nodes "en") 2027
                        (after (setLang "fr") sample_world))).
Proof.
  assert (H : write_succeeds sample_world) by (intros c; reflexivity).
  split; [exact H|].
  exact (proj1 (preference_survives_reload "fr" (mkDocument sample_nodes "en")
                  2027 sample_world H)).
Defined.

(** X4: a choice that could not be written is forgotten: if the storage
    write throws, then after [setLang] or [toggleLanguage] a later load of
    the page starts from the same world as if the call had not been made,
    and [init] applies the language resolved from the old storage. *)
Theorem choice_lost_when_write_throws next served year w :
  write_throws w →
  reload served year (after (setLang next) w) = reload served year w ∧
  reload served year (after toggleLanguage w) = reload served year w ∧
  language_applied (saved_lang w)
    (after init (reload served year (after (setLang next) w))).
Proof.
  intros Hthrow%write_throws_flags.
  assert (H : ∀ x, reload served year (after (setLang x) w) = reload served year w).
  { intros x. unfold reload. by rewrite storage_after_setLang, Hthrow. }
  split; [apply H|]. split; [rewrite after_toggleLanguage; apply H|].
  rewrite H. apply (init_applies (reload served year w)).
Qed.

(** X4 on the sample page with "fr" stored and the storage full: English
    is chosen, yet the next load shows French. *)
Lemma choice_lost_when_write_throws_witness :
  write_throws sample_world_full ∧
  lang_of (after (setLang "en") sample_world_full) = "en" ∧
  language_applied fr
    (after init (reload (mkDocument sample_nodes "en") 2027
                        (after (setLang "en") sample_world_full))).
Proof.
  assert (H : write_throws sample_world_full)
    by (intros c; exists QuotaExceededError; reflexivity).
  split; [exact H|]. split; [reflexivity|].
  exact (proj2 (proj2 (choice_lost_when_write_throws "en"
                  (mkDocument sample_nodes "en") 2027 sample_world_full H))).
Defined.

(** X5: what [setLang] and [toggleLanguage] leave in the document does not
    depend on the storage or the clock: from two worlds with the same
    document they leave the same document. *)
Theorem shown_document_ignores_storage next w1 w2 :
  document w1 = document w2 →
  document (after (setLang next) w1) = document (after (setLang next) w2) ∧
  document (after toggleLanguage w1) = document (after toggleLanguage w2).
Proof.
  intros Hdoc.
  assert (Hcur : current_of w1 = current_of w2)
    by (unfold current_of, lang_of; by rewrite Hdoc).
  rewrite !after_toggleLanguage, Hcur, !document_after_setLang.
  unfold nodes_of. by rewrite Hdoc.
Qed.

(** X5 on the sample page, with an empty storage and with a full one. *)
Lemma shown_document_ignores_storage_witness :
  document sample_world = document sample_world_full ∧
  document (after (setLang "fr") sample_world)
    = document (after (setLang "fr") sample_world_full) ∧
  document (after toggleLanguage sample_world)
    = document (after toggleLanguage sample_world_full).
Proof.
  split; [reflexivity|].
  exact (shown_document_ignores_storage "fr" sample_world sample_world_full eq_refl).
Defined.

Lemma mirrors_after_setLang next w :
  write_succeeds w →
  items_of (after (setLang next) w) !! portfolio_lang
    = Some (lang_of (after (setLang next) w)).
Proof.
  intros Hok%write_succeeds_flags. unfold items_of.
  rewrite storage_after_setLang, Hok, lang_after_setLang. simpl.
  apply lookup_insert_eq.
Qed.

(** X6: the stored preference mirrors the attribute: when the storage
    accepts the write, after [setLang] (on any argument), [toggleLanguage]
    or [init] the preference key holds exactly the string the language
    attribute was set to. *)
Theorem stored_code_mirrors_attribute next w :
  write_succeeds w →
  items_of (after (setLang next) w) !! portfolio_lang
    = Some (lang_of (after (setLang next) w)) ∧
  items_of (after toggleLanguage w) !! portfolio_lang
    = Some (lang_of (after toggleLanguage w)) ∧
  items_of (after init w) !! portfolio_lang = Some (lang_of (after init w)).
Proof.
  intros Hok. split; [by apply mirrors_after_setLang|]. split.
  - rewrite after_toggleLanguage. by apply mirrors_after_setLang.
  - unfold after. rewrite init_run.
    apply (mirrors_after_setLang _ (year_stamped w)).
    by apply write_succeeds_year_stamped.
Qed.

(** X6 on the sample page with French stored. *)
Lemma stored_code_mirrors_attribute_witness :
  write_succeeds sample_world_fr ∧
  items_of (after (setLang "en") sample_world_fr) !! portfolio_lang
    = Some (lang_of (after (setLang "en") sample_world_fr)) ∧
  items_of (after toggleLanguage sample_world_fr) !! portfolio_lang
    = Some (lang_of (after toggleLanguage sample_world_fr)) ∧
  items_of (after init sample_world_fr) !! portfolio_lang
    = Some (lang_of (after init sample_world_fr)).
Proof.
  assert (H : write_succeeds sample_world_fr) by (intros c; reflexivity).
  split; [exact H|].
  exact (stored_code_mirrors_attribute "en" sample_world_fr H).
Defined.


Lemma world_eq w w' :
  document w = document w' → localStorage w = localStorage w' →
  now_fullYear w = now_fullYear w' → w = w'.
Proof. destruct w, w'. simpl. by intros -> -> ->. Qed.

Lemma after_init w :
  after init w = after (setLang (code (saved_lang w))) (year_stamped w).
Proof.
  unfold after. rewrite init_run. unfold saved_lang.
  by destruct (val_eq (saved_of w) "fr").
Qed.

Lemma document_after_init w :
  document (after init w) =
  mkDocument (restyle (shown_display (if saved_lang w is fr then true else false))
                <$> nodes_of (year_stamped w))
             (code (saved_lang w)).
Proof.
  rewrite after_init, document_after_setLang, str_eq_code.
  by destruct (saved_lang w).
Qed.

Lemma storage_after_init w :
  localStorage (after init w) =
  if st_denied (localStorage w) || st_full (localStorage w) then localStorage w
  else mkStorage (<[portfolio_lang:=code (saved_lang w)]> (items_of w)) false false.
Proof.
  rewrite after_init, storage_after_setLang, storage_year_stamped, str_eq_code.
  unfold items_of. rewrite storage_year_stamped.
  by destruct (saved_lang w).
Qed.

Lemma year_after_init w : now_fullYear (after init w) = now_fullYear w.
Proof. by rewrite after_init, year_after_setLang. Qed.

Lemma saved_lang_after_init w : saved_lang (after init w) = saved_lang w.
Proof.
  unfold saved_lang at 1. unfold saved_of, items_of. rewrite storage_after_init.
  destruct (st_denied (localStorage w)) eqn:Hd; simpl.
  - rewrite Hd. unfold saved_lang, saved_of. by rewrite Hd.
  - destruct (st_full (localStorage w)) eqn:Hf; simpl.
    + rewrite Hd. unfold saved_lang, saved_of, items_of. by rewrite Hd.
    + rewrite lookup_insert_eq. by destruct (saved_lang w).
Qed.

Lemma nodes_year_stamped w :
  nodes_of (year_stamped w) =
  stamp (year_ref "year-fr" w) (String_of_number (now_fullYear w))
    (stamp (year_ref "year" w) (String_of_number (now_fullYear w)) (nodes_of w)).
Proof. done. Qed.

Lemma nodes_after_init_saved w :
  nodes_of (after init w) =
  restyle (shown_display (if saved_lang w is fr then true else false))
    <$> nodes_of (year_stamped w).
Proof. unfold nodes_of at 1. by rewrite document_after_init. Qed.

(** Every node a reference leads to after [init] was there before, with
    its id, classes and, up to the language passes, its display. *)
Lemma init_origin p w i c d ch :
  node_at p (nodes_of (after init w)) = Some (Elem i c d ch) →
  ∃ d0 ch0, node_at p (nodes_of w) = Some (Elem i c d0 ch0).
Proof.
  rewrite nodes_after_init_saved, node_at_restyle, nodes_year_stamped.
  destruct (node_at p _) as [[s|i0 c0 d0 ch0]|] eqn:Hn; simpl; [done| |done].
  intros [= -> -> _ _].
  apply stamp_origin in Hn as [ch1 Hn]. apply stamp_origin in Hn as [ch2 Hn].
  eauto.
Qed.

(** After the year statements, a year element that was found is written,
    or gone; writing it again changes nothing. *)
Lemma year_stamped_settled x p w :
  x = "year" ∨ x = "year-fr" → year_ref x w = Some p →
  alter_at (text_set (String_of_number (now_fullYear w))) p (nodes_of (year_stamped w))
  = nodes_of (year_stamped w).
Proof.
  intros Hx Hp. rewrite nodes_year_stamped.
  destruct (year_ref_Some x w p Hp) as (_ & c & d & ch & Hnode).
  destruct Hx as [-> | ->]; rewrite Hp.
  - destruct (year_ref "year-fr" w) as [q|] eqn:Hq; simpl.
    + destruct (decide (inside q p)) as [Hin|Hout].
      * destruct (year_ref_Some "year-fr" w q Hq) as (_ & c' & d' & ch' & Hnq).
        apply text_set_at_nothing. by eapply gone_first_then_second.
      * eapply text_set_at_again. by eapply written_first.
    + eapply text_set_at_again. by eapply written_once.
  - destruct (year_ref "year" w) as [q|] eqn:Hq; simpl.
    + destruct (decide (inside q p)) as [Hin|Hout].
      * destruct (year_ref_Some "year" w q Hq) as (_ & c' & d' & ch' & Hnq).
        apply text_set_at_nothing. by eapply gone_second_then_first.
      * eapply text_set_at_again. by eapply written_second.
    + eapply text_set_at_again. by eapply written_once.
Qed.

Lemma id_unique_found x w p q :
  id_unique x w →
  p ∈ find_all (has_id x) (nodes_of w) → q ∈ find_all (has_id x) (nodes_of w) → p = q.
Proof.
  unfold id_unique, elements_of. intros Hone Hp Hq.
  assert (Hlen : (length (find_all (has_id x) (nodes_of w)) ≤ 1)%nat).
  { rewrite find_all_length.
    rewrite (list_filter_iff _ (λ e, el_id e = x)); [done|].
    intros e. unfold has_id. apply bool_decide_eq_true. }
  destruct (find_all (has_id x) (nodes_of w)) as [|a [|b r]]; simpl in Hlen.
  - by apply elem_of_nil in Hp.
  - apply list_elem_of_singleton in Hp, Hq. congruence.
  - lia.
Qed.

(** With the id unique, a second [init] finds the element the first one
    found, or none. *)
Lemma year_ref_after_init x w p :
  id_unique x w → year_ref x (after init w) = Some p → year_ref x w = Some p.
Proof.
  intros Hone Hp.
  destruct (year_ref_Some x (after init w) p Hp) as (_ & c & d & ch & Hnode).
  apply init_origin in Hnode as (d0 & ch0 & Hnode).
  assert (Hin : p ∈ find_all (has_id x) (nodes_of w)).
  { apply find_all_spec. exists x, c, d0, ch0. split; [done|].
    unfold has_id. by apply bool_decide_eq_true. }
  unfold year_ref.
  destruct (find_all (has_id x) (nodes_of w)) as [|a r] eqn:Hfind.
  - by apply elem_of_nil in Hin.
  - simpl. f_equal. apply (id_unique_found x w a p Hone); rewrite Hfind; [by left|done].
Qed.

(** X9: [init] is idempotent on a page where at most one element has the
    id "year" and at most one the id "year-fr": running it a second time,
    with the clock unchanged, leaves the whole world (document, storage) as
    the first run left it. *)
Theorem init_twice_is_init w :
  id_unique "year" w → id_unique "year-fr" w →
  (init;; init) w = init w.
Proof.
  intros Hy Hyfr.
  assert (Hpair : ∀ w0, init w0 = (Normal tt, after init w0)).
  { intros w0. unfold after. rewrite init_run. by rewrite setLang_pair. }
  unfold mbind, JS_bind. rewrite (Hpair w), (Hpair (after init w)). f_equal.
  assert (Hagain : ∀ x, x = "year" ∨ x = "year-fr" → id_unique x w →
            stamp (year_ref x (after init w)) (String_of_number (now_fullYear w))
              (nodes_of (after init w)) = nodes_of (after init w)).
  { intros x Hx Hone. rewrite nodes_after_init_saved, stamp_restyle. f_equal.
    destruct (year_ref x (after init w)) as [p|] eqn:Hp; [|done]. simpl.
    apply (year_stamped_settled x p w Hx). by apply year_ref_after_init. }
  assert (Hsettled : year_stamped (after init w) = after init w).
  { apply world_eq; [|done|done].
    unfold year_stamped, with_nodes. simpl.
    rewrite year_after_init.
    rewrite (Hagain "year" (or_introl eq_refl) Hy).
    rewrite (Hagain "year-fr" (or_intror eq_refl) Hyfr).
    unfold nodes_of. by destruct (document (after init w)). }
  rewrite (after_init (after init w)), Hsettled, saved_lang_after_init.
  rewrite (after_init w). apply after_setLang_setLang.
Qed.

(** Without that, a second run can find another element: on a page with a
    second "year-fr" element, nested in the "year" element, the first run
    removes the nested one and the second run writes the other. *)
Example init_twice_duplicate_ids :
  nodes_of (after init page_duplicate_ids) =
    [ Elem "year" [] "" [Text "2026"]; Elem "year-fr" [] "" [Text "2019"] ] ∧
  nodes_of (after (init;; init) page_duplicate_ids) =
    [ Elem "year" [] "" [Text "2026"]; Elem "year-fr" [] "" [Text "2026"] ].
Proof. split; by vm_compute. Qed.

(** X9 on the footer page, where each id occurs once. *)
Lemma init_twice_is_init_witness :
  id_unique "year" footer_world ∧ id_unique "year-fr" footer_world ∧
  (init;; init) footer_world = init footer_world.
Proof.
  assert (H1 : id_unique "year" footer_world) by (vm_compute; lia).
  assert (H2 : id_unique "year-fr" footer_world) by (vm_compute; lia).
  split; [exact H1|]. split; [exact H2|].
  exact (init_twice_is_init footer_world H1 H2).
Defined.

Lemma shown_display_neutral b c d :
  shown_display b c (neutral_display c d) = shown_display b c d.
Proof.
  unfold shown_display, neutral_display, paint.
  repeat case_bool_decide; try done; tauto.
Qed.

Lemma alike_found P (l1 l2 : list Node) :
  served_alike l1 l2 → find_all P l1 = find_all P l2.
Proof.
  unfold served_alike, find_all. intros H.
  rewrite <- (find_from_restyle P neutral_display 0 l1), H.
  apply find_from_restyle.
Qed.

(** X8: [init] does not look at the language state the page was served
    with: two worlds with the same storage and clock whose documents differ
    only in the language attribute and in the inline display of
    language-tagged elements are left in the same world. *)
Theorem init_ignores_served_language_state w1 w2 :
  served_alike (nodes_of w1) (nodes_of w2) →
  localStorage w1 = localStorage w2 →
  now_fullYear w1 = now_fullYear w2 →
  after init w1 = after init w2.
Proof.
  intros Hals Hst Hy.
  assert (Hsaved : saved_lang w1 = saved_lang w2)
    by (unfold saved_lang, saved_of, items_of; by rewrite Hst).
  assert (Hneutral : ∀ b (l : list Node),
            restyle (shown_display b) <$> l
            = restyle (shown_display b) <$> (restyle neutral_display <$> l)).
  { intros b l. rewrite restyle_forest_restyle. apply restyle_forest_ext.
    intros c d. symmetry. apply shown_display_neutral. }
  apply world_eq.
  - rewrite !document_after_init, Hsaved. f_equal.
    rewrite (Hneutral _ (nodes_of (year_stamped w1))).
    rewrite (Hneutral _ (nodes_of (year_stamped w2))). f_equal.
    rewrite !nodes_year_stamped, <- !stamp_restyle.
    unfold year_ref. rewrite !(alike_found _ _ _ Hals), Hy.
    unfold served_alike in Hals. by rewrite Hals.
  - rewrite !storage_after_init, Hsaved. unfold items_of. by rewrite Hst.
  - by rewrite !year_after_init.
Qed.

(** X8 on the sample page, served in English and served in French. *)
Lemma init_ignores_served_language_state_witness :
  lang_of sample_world_served_in_French = "fr" ∧
  after init sample_world_served_in_French = after init sample_world.
Proof.
  split; [reflexivity|].
  apply init_ignores_served_language_state; reflexivity.
Defined.

(** X7: [$all] gives the same references before and after [setLang] (on
    any argument) and [toggleLanguage], for every class selector; after
    [init] it gives those of the references from before that still lead to
    an element, that is all but the elements removed with the old content
    of a year element. *)
Theorem all_after_operations selector next w :
  (all selector (after (setLang next) w)).1 = (all selector w).1 ∧
  (all selector (after toggleLanguage w)).1 = (all selector w).1 ∧
  (∀ refs refs' p,
     (all selector w).1 = Normal refs →
     (all selector (after init w)).1 = Normal refs' →
     (p ∈ refs' ↔ p ∈ refs ∧ is_Some (element_at p (after init w)))).
Proof.
  assert (H : ∀ x, (all selector (after (setLang x) w)).1 = (all selector w).1).
  { intros x. unfold all, querySelectorAll. simpl. f_equal.
    fold (nodes_of (after (setLang x) w)). rewrite nodes_after_setLang.
    apply find_from_restyle. }
  split; [apply H|]. split; [rewrite after_toggleLanguage; apply H|].
  intros refs refs' p [= <-] [= <-].
  fold (nodes_of w). fold (nodes_of (after init w)).
  rewrite !find_all_spec. unfold element_at. split.
  - intros (i & c & d & ch & Hn & Hm). split.
    + destruct (init_origin p w i c d ch Hn) as (d0 & ch0 & Hn0).
      by exists i, c, d0, ch0.
    + rewrite Hn. by eexists.
  - intros [(i & c & d & ch & Hn & Hm) [e He]].
    destruct (node_at p (nodes_of (after init w))) as [[s|i' c' d' ch']|] eqn:Hn';
      [done| |done].
    destruct (init_origin p w i' c' d' ch' Hn') as (d0 & ch0 & Hn0).
    rewrite Hn in Hn0. injection Hn0 as -> -> _ _.
    by exists i', c', d', ch'.
Qed.

(** An element outside a written element stays at its place with its id,
    classes and display; with its children too unless the written element
    is inside it. *)
Lemma survives_text_set y p q (l : list Node) i c d ch :
  node_at p l = Some (Elem i c d ch) → ¬ q `prefix_of` p →
  ∃ ch', node_at p (alter_at (text_set y) q l) = Some (Elem i c d ch') ∧
         (¬ p `prefix_of` q → ch' = ch).
Proof.
  intros Hp Hqp. assert (Hp0 : p ≠ []) by (by destruct p).
  destruct (decide (p `prefix_of` q)) as [[r ->]|Hpq].
  - rewrite node_at_alter_below, Hp by done. simpl.
    destruct (text_set_in_elem y r i c d ch) as [ch' ->].
    exists ch'. split; [done|]. intros []. by exists r.
  - rewrite node_at_alter_apart by done. eauto.
Qed.

Lemma survives_stamp el y p (l : list Node) i c d ch :
  node_at p l = Some (Elem i c d ch) →
  (∀ q, el = Some q → ¬ q `prefix_of` p) →
  ∃ ch', node_at p (stamp el y l) = Some (Elem i c d ch') ∧
         ((∀ q, el = Some q → ¬ p `prefix_of` q) → ch' = ch).
Proof.
  intros Hp Hout. destruct el as [q|]; simpl; [|by eauto].
  destruct (survives_text_set y p q l i c d ch Hp (Hout q eq_refl)) as (ch' & Hn & Hch).
  exists ch'. split; [done|]. intros H. by apply Hch, H.
Qed.

(** X10: what [init] leaves alone. Every element of the page after [init]
    is an element of the page before, with its id and classes, and with its
    inline display unless it is tagged for a language: [init] creates and
    retags nothing. An element that is neither a year element [init] finds
    nor inside one stays at its place, with its text too unless it contains
    such a year element. Every storage key other than the preference key,
    the storage's availability and the clock are as they were. *)
Theorem init_touches_only_year_and_language w :
  (∀ e', e' ∈ elements_of (after init w) →
     ∃ e, e ∈ elements_of w ∧
          el_id e' = el_id e ∧
          el_classList e' = el_classList e ∧
          (¬ tagged en e → ¬ tagged fr e → el_display e' = el_display e)) ∧
  (∀ p e, element_at p w = Some e → outside_years p w →
     ∃ e', element_at p (after init w) = Some e' ∧
           el_id e' = el_id e ∧
           el_classList e' = el_classList e ∧
           (¬ tagged en e → ¬ tagged fr e → el_display e' = el_display e) ∧
           (holds_no_year p w → el_textContent e' = el_textContent e)) ∧
  (∀ k, k ≠ portfolio_lang → items_of (after init w) !! k = items_of w !! k) ∧
  st_denied (localStorage (after init w)) = st_denied (localStorage w) ∧
  st_full (localStorage (after init w)) = st_full (localStorage w) ∧
  now_fullYear (after init w) = now_fullYear w.
Proof.
  split; [|split].
  - intros e' He'. rewrite elements_after_init in He'.
    apply list_elem_of_fmap in He' as (e1 & -> & He1).
    apply elements_year_stamped in He1 as (e & He & Hi & Hc & Hd).
    exists e. split; [done|]. rewrite relabel_id, relabel_classList.
    split; [done|]. split; [done|]. intros Hen Hfr.
    rewrite relabel_untagged; [done| |]; unfold tagged; by rewrite Hc.
  - intros p e Hp Hout. unfold element_at in Hp.
    destruct (node_at p (nodes_of w)) as [[s|i c d ch]|] eqn:Hn; [done| |done].
    simpl in Hp. injection Hp as <-.
    destruct (survives_stamp (year_ref "year" w) (String_of_number (now_fullYear w))
                p (nodes_of w) i c d ch Hn) as (ch1 & Hn1 & Hch1).
    { intros q Hq. by apply (Hout "year" q); [left|]. }
    destruct (survives_stamp (year_ref "year-fr" w) (String_of_number (now_fullYear w))
                p _ i c d ch1 Hn1) as (ch2 & Hn2 & Hch2).
    { intros q Hq. by apply (Hout "year-fr" q); [right|]. }
    unfold element_at.
    rewrite nodes_after_init_saved, node_at_restyle, nodes_year_stamped, Hn2.
    simpl. eexists. split; [reflexivity|]. simpl.
    split; [done|]. split; [done|]. split.
    + unfold tagged. simpl. intros Hen Hfr. unfold shown_display, paint.
      rewrite (bool_decide_eq_false_2 _ Hfr). by rewrite (bool_decide_eq_false_2 _ Hen).
    + intros Hno. rewrite text_of_restyle.
      rewrite Hch2 by (intros q Hq; by apply (Hno "year-fr" q); [right|]).
      by rewrite Hch1 by (intros q Hq; by apply (Hno "year" q); [left|]).
  - rewrite storage_after_init, year_after_init. unfold items_of.
    rewrite storage_after_init.
    destruct (st_denied (localStorage w)) eqn:Hd,
             (st_full (localStorage w)) eqn:Hf; simpl; rewrite ?Hd, ?Hf;
      repeat split; try done.
    intros k Hk. by rewrite lookup_insert_ne.
Qed.

(** X10 on the footer page: the card, outside the footer, is as it was. *)
Lemma init_touches_only_year_and_language_witness :
  element_at [0]%nat footer_world = Some (mkElement "" ["card"] "" "Projects") ∧
  outside_years [0]%nat footer_world ∧
  ∃ e', element_at [0]%nat (after init footer_world) = Some e' ∧
        el_id e' = "" ∧ el_classList e' = ["card"] ∧ el_display e' = "" ∧
        el_textContent e' = "Projects".
Proof.
  assert (Hout : outside_years [0]%nat footer_world).
  { intros x q [-> | ->] [= <-]; by intros [r [=]]. }
  assert (Hno : holds_no_year [0]%nat footer_world).
  { intros x q [-> | ->] [= <-]; by intros [r [=]]. }
  split; [reflexivity|]. split; [exact Hout|].
  destruct (proj1 (proj2 (init_touches_only_year_and_language footer_world))
              [0]%nat (mkElement "" ["card"] "" "Projects") eq_refl Hout)
    as (e' & He' & Hi & Hc & Hd & Ht).
  exists e'. split; [exact He'|]. split; [exact Hi|]. split; [exact Hc|].
  split; [apply Hd; apply (bool_decide_unpack _); by vm_compute | exact (Ht Hno)].
Defined.

(** X11: the first click after a load shows the opposite of what [init]
    resolved from the storage, whatever attribute the page was served with:
    [init] followed by [toggleLanguage] completes and leaves the world as
    [setLang] on the opposite of the saved language leaves the page with its
    year stamped. *)
Theorem first_click_after_load w :
  completes (init;; toggleLanguage) w ∧
  after (init;; toggleLanguage) w
    = after (setLang (code (other (saved_lang w)))) (year_stamped w) ∧
  language_applied (other (saved_lang w)) (after (init;; toggleLanguage) w).
Proof.
  assert (Hpair : init w = (Normal tt, after init w)).
  { unfold after. rewrite init_run. by rewrite setLang_pair. }
  assert (Hafter : after (init;; toggleLanguage) w
                   = after toggleLanguage (after init w)).
  { unfold after at 1. unfold mbind, JS_bind. by rewrite Hpair. }
  assert (Hcur : current_of (after init w) = saved_lang w)
    by (rewrite after_init; apply current_after_setLang).
  split; [|split].
  - unfold completes, mbind, JS_bind. rewrite Hpair. apply completes_toggleLanguage.
  - rewrite Hafter, after_toggleLanguage, Hcur, after_init.
    apply after_setLang_setLang.
  - rewrite Hafter. pose proof (toggleLanguage_applies (after init w)) as H.
    by rewrite Hcur in H.
Qed.

End Composition.
